(** * The numerical engine of the AI Tipping Point Atlas (src/app.py)

    A shallow embedding of the three numerical pieces of [app.py]:
    [get_bifurcation_data] (the bifurcation sweep of the logistic map),
    [simulate_time_series] (one noisy trajectory) and the early-warning
    metrics computed in [main] (lag-1 autocorrelation and variance).

    Number model.  Python floats are embedded as exact reals [R]; the
    IEEE special values that the code tests for ([pd.isna]) are kept as
    [npfloat].  Rounding, overflow and signed zeros of binary64 are not
    part of the embedding.  Python integers are [Z]; exceptions are the
    left summand of [result]. *)

From Stdlib Require Import Reals Lra Lia ZArith List Permutation Bool.
Import ListNotations.
Open Scope R_scope.

(** ** Python and NumPy runtime pieces used by the source *)

Inductive exception : Set :=
| ValueError
| IndexError.

Definition result (A : Type) : Type := (exception + A)%type.

Definition raise {A : Type} (e : exception) : result A := inl e.

Definition bind {A B : Type} (m : result A) (k : A -> result B) : result B :=
  match m with
  | inl e => inl e
  | inr a => k a
  end.

Notation "x <- m ;; k" := (bind m (fun x => k))
  (at level 61, m at next level, right associativity).

(** [range(lo, hi)]: empty when [hi <= lo]. *)
Definition range (lo hi : Z) : list Z :=
  map (fun k => (lo + Z.of_nat k)%Z) (seq 0 (Z.to_nat (hi - lo))).

(** Elementwise product of two arrays of one shape. *)
Fixpoint ew_mul (a b : list R) : list R :=
  match a, b with
  | u :: a', v :: b' => u * v :: ew_mul a' b'
  | _, _ => []
  end.

(** [1 - x] broadcast over an array. *)
Definition one_minus (x : list R) : list R := map (fun v => 1 - v) x.

(** [np.ones(n)]: rejects a negative size. *)
Definition ones (n : Z) : result (list R) :=
  if (n <? 0)%Z then raise ValueError else inr (repeat 1 (Z.to_nat n)).

(** [np.arange(0, num)] as floats. *)
Definition arange (num : nat) : list R := map INR (seq 0 num).

(** [y[-1] = v] on a non-empty array. *)
Definition set_last (y : list R) (v : R) : list R :=
  match y with
  | [] => []
  | _ => removelast y ++ [v]
  end.

(** [np.linspace(start, stop, num)] with [endpoint=True]:
    [div = num - 1]; [step = delta / div] when [div > 0]; the grid is
    [arange(num) * step + start] and its last entry is overwritten by
    [stop] when [num > 1].  A zero step takes the branch that divides
    first; [num <= 1] multiplies by [delta]. *)
Definition linspace (start stop : R) (num : Z) : result (list R) :=
  if (num <? 0)%Z then raise ValueError
  else
    let div := (num - 1)%Z in
    let delta := stop - start in
    let y := arange (Z.to_nat num) in
    let y :=
      if (0 <? div)%Z then
        let step := delta / IZR div in
        if Req_dec_T step 0
        then map (fun v => v / IZR div * delta) y
        else map (fun v => v * step) y
      else map (fun v => v * delta) y in
    let y := map (fun v => v + start) y in
    inr (if (1 <? num)%Z then set_last y stop else y).

(** ** Data frames *)

(** One row of the frame [pd.DataFrame({'r': r_values, 'x': x})]: the
    label of the default integer index and the two columns. *)
Record row : Type := mk_row { label : nat; r_col : R; x_col : R }.

Definition DataFrame : Type := list row.

(** The rows of two columns of one length, labelled from [k] on. *)
Fixpoint frame_from (k : nat) (rs xs : list R) : DataFrame :=
  match rs, xs with
  | r :: rs', x :: xs' => mk_row k r x :: frame_from (S k) rs' xs'
  | _, _ => []
  end.

Definition make_frame (rs xs : list R) : DataFrame := frame_from 0 rs xs.

(** [pd.concat(frames)]: rows in order, labels kept; an empty list of
    frames is rejected ("No objects to concatenate"). *)
Definition pd_concat (frames : list DataFrame) : result DataFrame :=
  match frames with
  | [] => raise ValueError
  | _ => inr (concat frames)
  end.

(** ** get_bifurcation_data (app.py, lines 56-71) *)

Definition seed : R := 1e-5.

(** [r_values * x * (1 - x)] *)
Definition logistic_update (r_values x : list R) : list R :=
  ew_mul (ew_mul r_values x) (one_minus x).

(** One pass of the loop body on the pair [(x, results)]. *)
Definition bifurcation_body (r_values : list R) (iterations last : Z)
    (st : list R * list DataFrame) (i : Z) : list R * list DataFrame :=
  let '(x, results) := st in
  let x := logistic_update r_values x in
  if (i >=? iterations - last)%Z
  then (x, results ++ [make_frame r_values x])
  else (x, results).

Definition get_bifurcation_data (min_r max_r : R) (steps iterations last : Z)
  : result DataFrame :=
  r_values <- linspace min_r max_r steps ;;
  o <- ones steps ;;
  let x := map (fun v => seed * v) o in
  let '(_, results) :=
    fold_left (bifurcation_body r_values iterations last)
              (range 0 iterations) (x, []) in
  pd_concat results.

(** ** simulate_time_series (app.py, lines 73-81) *)

(** Python's two-argument [max(a, b)]: [b] only when [b > a]. *)
Definition py_max (a b : R) : R := if Rlt_dec a b then b else a.

(** [np.clip(v, lo, hi)] is [minimum(maximum(v, lo), hi)]. *)
Definition clip (v lo hi : R) : R := Rmin (Rmax v lo) hi.

(** [np.zeros(n)]: rejects a negative size. *)
Definition zeros (n : Z) : result (list R) :=
  if (n <? 0)%Z then raise ValueError else inr (repeat 0 (Z.to_nat n)).

(** Index normalisation of a sequence of length [n]: a negative index
    counts from the end, anything still outside is an [IndexError]. *)
Definition norm_index (n : nat) (i : Z) : result nat :=
  let j := if (i <? 0)%Z then (i + Z.of_nat n)%Z else i in
  if ((j <? 0) || (Z.of_nat n <=? j))%Z then raise IndexError
  else inr (Z.to_nat j).

Fixpoint update (a : list R) (k : nat) (v : R) : list R :=
  match a, k with
  | [], _ => []
  | _ :: a', O => v :: a'
  | u :: a', S k' => u :: update a' k' v
  end.

(** [a[i]] *)
Definition getitem (a : list R) (i : Z) : result R :=
  k <- norm_index (length a) i ;; inr (nth k a 0).

(** [a[i] = v] *)
Definition setitem (a : list R) (i : Z) (v : R) : result (list R) :=
  k <- norm_index (length a) i ;; inr (update a k v).

Section RandomSource.

(** The state of NumPy's global generator and its Gaussian sampler:
    [gauss loc scale g] is the value drawn and the next state. *)
Variable RandomState : Type.
Variable gauss : R -> R -> RandomState -> R * RandomState.

(** Computations that may raise and that thread the generator. *)
Definition rnd (A : Type) : Type := RandomState -> result (A * RandomState).

(** [np.random.normal(loc, scale)]: a negative scale is rejected. *)
Definition random_normal (loc scale : R) : rnd R :=
  fun g =>
    if Rlt_dec scale 0 then raise ValueError
    else inr (gauss loc scale g).

(** [for t in ts: s = body(s, t)] *)
Fixpoint for_each {S : Type} (body : S -> Z -> rnd S) (ts : list Z) (s : S)
  : rnd S :=
  fun g =>
    match ts with
    | [] => inr (s, g)
    | t :: ts' => p <- body s t g ;; for_each body ts' (fst p) (snd p)
    end.

(** The body of the loop at lines 77-80. *)
Definition simulate_body (r noise_level : R) (x : list R) (t : Z)
  : rnd (list R) :=
  fun g =>
    a <- getitem x (t - 1) ;;
    b <- getitem x (t - 1) ;;
    let upd := r * a * (1 - b) in
    p <- random_normal 0 (py_max 0.0001 noise_level) g ;;
    let noise := fst p in
    x' <- setitem x t (clip (upd + noise) 0 1) ;;
    inr (x', snd p).

Definition simulate_time_series (r noise_level : R) (steps : Z)
  : rnd (list R) :=
  fun g =>
    x <- zeros steps ;;
    x <- setitem x 0 0.5 ;;
    for_each (simulate_body r noise_level) (range 1 steps) x g.

(** The generator state before the draw number [k] (counting from 0)
    of a run that always samples with the given [scale], and the
    value of that draw. *)
Fixpoint state_at (scale : R) (g : RandomState) (k : nat) : RandomState :=
  match k with
  | O => g
  | S k' => snd (gauss 0 scale (state_at scale g k'))
  end.

Definition draw (scale : R) (g : RandomState) (k : nat) : R :=
  fst (gauss 0 scale (state_at scale g k)).

End RandomSource.

Arguments random_normal {RandomState} gauss loc scale _.
Arguments for_each {RandomState S} body ts s _.
Arguments simulate_body {RandomState} gauss r noise_level x t _.
Arguments simulate_time_series {RandomState} gauss r noise_level steps _.
Arguments state_at {RandomState} gauss scale g k.
Arguments draw {RandomState} gauss scale g k.

(** ** The early-warning metrics (app.py, lines 145-155) *)

(** A float64 value: a real number or one of the IEEE special values. *)
Inductive npfloat : Type :=
| Fin (v : R)
| Inf (positive : bool)
| NaN.

Definition is_pos (u : R) : bool := if Rlt_dec 0 u then true else false.

Definition np_mul (a b : npfloat) : npfloat :=
  match a, b with
  | NaN, _ | _, NaN => NaN
  | Fin u, Fin v => Fin (u * v)
  | Fin u, Inf s | Inf s, Fin u =>
      if Req_dec_T u 0 then NaN else Inf (Bool.eqb (is_pos u) s)
  | Inf s, Inf s' => Inf (Bool.eqb s s')
  end.

Definition np_div (a b : npfloat) : npfloat :=
  match a, b with
  | NaN, _ | _, NaN => NaN
  | Fin u, Fin v =>
      if Req_dec_T v 0
      then (if Req_dec_T u 0 then NaN else Inf (is_pos u))
      else Fin (u / v)
  | Fin _, Inf _ => Fin 0
  | Inf s, Fin v => Inf (if Rlt_dec v 0 then negb s else s)
  | Inf _, Inf _ => NaN
  end.

Definition np_sqrt (a : npfloat) : npfloat :=
  match a with
  | Fin v => if Rlt_dec v 0 then NaN else Fin (sqrt v)
  | Inf true => Inf true
  | Inf false => NaN
  | NaN => NaN
  end.

Definition np_clip (a : npfloat) (lo hi : R) : npfloat :=
  match a with
  | Fin v => Fin (clip v lo hi)
  | Inf true => Fin hi
  | Inf false => Fin lo
  | NaN => NaN
  end.

(** [pd.isna] on a float *)
Definition isna (a : npfloat) : bool :=
  match a with
  | NaN => true
  | _ => false
  end.

Definition rsum (l : list R) : R := fold_right Rplus 0 l.

Definition mean (l : list R) : R := rsum l / INR (length l).

(** [Series.var()] ([nanops.nanvar], [ddof = 1], no missing value): NaN
    when [count <= ddof], otherwise the two-pass formula
    [sum((avg - values) ** 2) / (count - ddof)]. *)
Definition series_var (s : list R) : npfloat :=
  let count := length s in
  if (count <=? 1)%nat then NaN
  else
    let avg := rsum s / INR count in
    let sqr := map (fun v => (avg - v) ^ 2) s in
    Fin (rsum sqr / (INR count - 1)).

(** [Series.shift(1)]: same length, a missing value in front. *)
Definition shift1 (s : list R) : list (option R) :=
  firstn (length s) (None :: map Some s).

(** The positions where both operands are present
    ([valid = notna(a) & notna(b)]). *)
Fixpoint valid_pairs (a b : list (option R)) : list (R * R) :=
  match a, b with
  | Some u :: a', Some v :: b' => (u, v) :: valid_pairs a' b'
  | _ :: a', _ :: b' => valid_pairs a' b'
  | _, _ => []
  end.

Definition center (l : list R) : list R :=
  let avg := mean l in map (fun v => v - avg) l.

Definition dot (a b : list R) : R := rsum (ew_mul a b).

(** [np.cov(a, b)] for two rows of one length: the entries
    [(c00, c01, c11)] of the symmetric 2x2 matrix
    [dot(X, X.T) * (1 / fact)], [fact = N - 1] replaced by [0.0] when it
    is not positive. *)
Definition np_cov (a b : list R) : npfloat * npfloat * npfloat :=
  let fact := INR (length a) - 1 in
  let fact := if Rle_dec fact 0 then 0 else fact in
  let xa := center a in
  let xb := center b in
  let k := np_div (Fin 1) (Fin fact) in
  (np_mul (Fin (dot xa xa)) k,
   np_mul (Fin (dot xa xb)) k,
   np_mul (Fin (dot xb xb)) k).

(** [np.corrcoef(a, b)[0, 1]]: the covariance divided by the two
    standard deviations, one after the other, then clipped. *)
Definition np_corrcoef (a b : list R) : npfloat :=
  let '(c00, c01, c11) := np_cov a b in
  let stddev0 := np_sqrt c00 in
  let stddev1 := np_sqrt c11 in
  np_clip (np_div (np_div c01 stddev0) stddev1) (-1) 1.

(** [nanops.nancorr] with [min_periods = 1]. *)
Definition nancorr (a b : list (option R)) : npfloat :=
  let ps := valid_pairs a b in
  if (length ps <? 1)%nat then NaN
  else np_corrcoef (map fst ps) (map snd ps).

(** [Series.corr(other)] for operands on one index. *)
Definition series_corr (s : list R) (other : list (option R)) : npfloat :=
  if (length s =? 0)%nat then NaN else nancorr (map Some s) other.

(** [Series.autocorr(lag=1)] is [self.corr(self.shift(1))]. *)
Definition series_autocorr (s : list R) : npfloat :=
  series_corr s (shift1 s).

(** Lines 148-155 of [main]: both statistics, NaN replaced by [0.0]. *)
Definition compute_metrics (ts_data : list R) : npfloat * npfloat :=
  let autocorr := series_autocorr ts_data in
  let variance := series_var ts_data in
  let autocorr := if isna autocorr then Fin 0 else autocorr in
  let variance := if isna variance then Fin 0 else variance in
  (autocorr, variance).

(** ** Reference definitions the properties are stated against *)

(** The logistic map and the orbit of the seed under it. *)
Definition logistic (r x : R) : R := r * x * (1 - x).

Fixpoint orbit (r : R) (n : nat) : R :=
  match n with
  | O => seed
  | S n' => logistic r (orbit r n')
  end.

(** The per-parameter reference of the sweep, written after the design
    note of the specification and not after the code: one growth rate
    at a time is iterated from the seed to completion, keeping the
    states of the final [last] passes; the rows of the parameter number
    [k] carry the label [k]. *)
Definition scalar_body (r : R) (iterations last : Z)
    (st : R * list R) (i : Z) : R * list R :=
  let '(x, tail) := st in
  let x := r * x * (1 - x) in
  if (i >=? iterations - last)%Z then (x, tail ++ [x]) else (x, tail).

Definition trajectory_tail (r : R) (iterations last : Z) : list R :=
  snd (fold_left (scalar_body r iterations last) (range 0 iterations)
                 (seed, [])).

Fixpoint per_parameter_from (k : nat) (rs : list R) (iterations last : Z)
  : DataFrame :=
  match rs with
  | [] => []
  | r :: rs' =>
      map (mk_row k r) (trajectory_tail r iterations last)
      ++ per_parameter_from (S k) rs' iterations last
  end.

Definition generate_per_parameter (min_r max_r : R)
    (steps iterations last : Z) : result DataFrame :=
  r_values <- linspace min_r max_r steps ;;
  inr (per_parameter_from 0 r_values iterations last).

(** The rows of a frame that carry one index label ([df.loc[k]]). *)
Definition rows_at (k : nat) (df : DataFrame) : DataFrame :=
  filter (fun rw => (label rw =? k)%nat) df.

(** The statistics as the specification names them: deviations from
    the mean, the unbiased sample variance (divisor [n - 1]) and
    Pearson's correlation coefficient. *)
Definition sum_sq_dev (l : list R) : R :=
  rsum (map (fun v => (v - mean l) ^ 2) l).

Definition sum_cross_dev (a b : list R) : R :=
  rsum (map (fun p => (fst p - mean a) * (snd p - mean b)) (combine a b)).

Definition sample_variance (l : list R) : R :=
  sum_sq_dev l / (INR (length l) - 1).

Definition pearson (a b : list R) : R :=
  sum_cross_dev a b / (sqrt (sum_sq_dev a) * sqrt (sum_sq_dev b)).


(** The evenly spaced grid of [num] points from [start] to [stop]. *)
Definition even_grid (start stop : R) (num : Z) : list R :=
  map (fun i => start + INR i * ((stop - start) / IZR (num - 1)))
      (seq 0 (Z.to_nat num)).

(** The states of all parameters after [n] passes, and the frame they
    are recorded in. *)
Definition vec_orbit (rs : list R) (n : nat) : list R :=
  map (fun r => orbit r n) rs.

Definition frame_at (rs : list R) (i : Z) : DataFrame :=
  make_frame rs (vec_orbit rs (S (Z.to_nat i))).

(** The passes whose states are kept. *)
Definition kept (iterations last : Z) : list Z :=
  range (Z.max 0 (iterations - last)) iterations.


(** The growth rate at position [k] of a sweep whose first position has
    number [s]. *)
Definition pick (s k : nat) (rs : list R) : option R :=
  if (s <=? k)%nat then nth_error rs (k - s) else None.

(** The rows of one parameter, in pass order. *)
Definition column (k : nat) (rs : list R) (passes : list Z) : DataFrame :=
  match pick 0 k rs with
  | Some r => map (fun i => mk_row k r (orbit r (S (Z.to_nat i)))) passes
  | None => []
  end.

(** The noisy recurrence of the trajectory, as a function of the
    sequence of noise values: [noise t] perturbs the step from time [t]
    to time [t + 1]. *)
Fixpoint trajectory (r : R) (noise : nat -> R) (t : nat) : R :=
  match t with
  | O => 0.5
  | S t' =>
      let x := trajectory r noise t' in
      clip (r * x * (1 - x) + noise t') 0 1
  end.

(** A deterministic stand-in for a generator, used to run the model on
    concrete inputs: the state counts the draws, and the values
    alternate around [loc] at distance [3 * scale]. *)
Definition counter_gauss (loc scale : R) (g : nat) : R * nat :=
  ((if Nat.even g then loc + 3 * scale else loc - 3 * scale), S g).

(** What the caller of a computation of [rnd] observes: the exception
    or the value, without the generator. *)
Definition outcome {A S : Type} (m : result (A * S)) : result A :=
  match m with
  | inl e => inl e
  | inr p => inr (fst p)
  end.

(** ** The metric card and the pipeline of [main] (app.py, lines 107,
    144-155 and 183-189) *)

(** [a < b] on floats: false as soon as one side is NaN. *)
Definition np_lt (a b : npfloat) : bool :=
  match a, b with
  | NaN, _ | _, NaN => false
  | Fin u, Fin v => if Rlt_dec u v then true else false
  | Fin _, Inf s => s
  | Inf s, Fin _ => negb s
  | Inf s, Inf s' => negb s && s'
  end.

Definition np_abs (a : npfloat) : npfloat :=
  match a with
  | Fin v => Fin (Rabs v)
  | Inf _ => Inf true
  | NaN => NaN
  end.

(** Python's two-argument [min(a, b)]: [b] only when [b < a]. *)
Definition py_min (a b : npfloat) : npfloat := if np_lt b a then b else a.

(** The three colours of the card: ["#00CC96"], ["#FFA15A"] and
    ["#FF4B4B"]. *)
Inductive colour : Set :=
| Green
| Orange
| Red.

(** Lines 184-186: green, then orange above 0.7, then red above 0.9. *)
Definition ac_color (autocorr : npfloat) : colour :=
  let c := Green in
  let c := if np_lt (Fin 0.7) autocorr then Orange else c in
  let c := if np_lt (Fin 0.9) autocorr then Red else c in
  c.

(** Line 189: [min(abs(autocorr) * 100, 100)]. *)
Definition bar_width (autocorr : npfloat) : npfloat :=
  py_min (np_mul (np_abs autocorr) (Fin 100)) (Fin 100).

(** What [main] computes before it renders: the bifurcation frame, the
    trajectory, the two metrics and the colour and bar of the card. *)
Record analysis : Type := mk_analysis {
  df_bif : DataFrame;
  ts_data : list R;
  autocorr : npfloat;
  variance : npfloat;
  card_colour : colour;
  card_bar : npfloat
}.

(** The numerical path of [main] for the slider values [r_focus] and
    [noise]: [get_bifurcation_data(2.5, 4.0, steps=800)] with the
    defaults [iterations=1000] and [last=100], then
    [simulate_time_series(r_focus, noise)] with the default
    [steps=200], then the metrics and the card. *)
Definition main_engine {RandomState : Type}
    (gauss : R -> R -> RandomState -> R * RandomState)
    (r_focus noise : R) : rnd RandomState analysis :=
  fun g =>
    df <- get_bifurcation_data 2.5 4.0 800 1000 100 ;;
    p <- simulate_time_series gauss r_focus noise 200 g ;;
    let ts := fst p in
    let m := compute_metrics ts in
    inr (mk_analysis df ts (fst m) (snd m)
                     (ac_color (fst m)) (bar_width (fst m)),
         snd p).

(** A generator without noise, used to run the model on concrete
    inputs: every draw is [loc]. *)
Definition silent_gauss (loc scale : R) (g : nat) : R * nat := (loc, S g).

(** The iterates of the logistic map from the start value 0.5 of the
    simulation. *)
Fixpoint logistic_iter (r : R) (t : nat) : R :=
  match t with
  | O => 0.5
  | S t' => logistic r (logistic_iter r t')
  end.

(** * Properties *)

(** ** Ranges *)

Lemma range_length (lo hi : Z) : length (range lo hi) = Z.to_nat (hi - lo).
Proof. unfold range. now rewrite length_map, length_seq. Qed.

Lemma range_nil (lo hi : Z) : (hi <= lo)%Z -> range lo hi = [].
Proof.
  intros H. unfold range.
  replace (Z.to_nat (hi - lo)) with 0%nat by lia. reflexivity.
Qed.

Lemma range_In (lo hi i : Z) : In i (range lo hi) <-> (lo <= i < hi)%Z.
Proof.
  unfold range. rewrite in_map_iff. split.
  - intros (k & <- & Hk). apply in_seq in Hk. lia.
  - intros H. exists (Z.to_nat (i - lo)). split; [lia|].
    apply in_seq. lia.
Qed.

Lemma map_seq_offset (f g : nat -> Z) (n : nat) :
  forall s t, (forall k, f (s + k)%nat = g (t + k)%nat) ->
              map f (seq s n) = map g (seq t n).
Proof.
  induction n as [|n IH]; intros s t H; simpl; [reflexivity|].
  f_equal.
  - specialize (H 0%nat). now rewrite !Nat.add_0_r in H.
  - apply IH. intros k. specialize (H (S k)).
    now rewrite <- !plus_n_Sm in H.
Qed.

Lemma range_split (a b c : Z) :
  (a <= b <= c)%Z -> range a c = range a b ++ range b c.
Proof.
  intros H. unfold range.
  replace (Z.to_nat (c - a)) with (Z.to_nat (b - a) + Z.to_nat (c - b))%nat
    by lia.
  rewrite seq_app, map_app. f_equal.
  apply map_seq_offset. intros k. lia.
Qed.

Lemma range_snoc (n : nat) :
  range 0 (Z.of_nat (S n)) = range 0 (Z.of_nat n) ++ [Z.of_nat n].
Proof.
  rewrite (range_split 0 (Z.of_nat n) (Z.of_nat (S n))) by lia.
  f_equal. unfold range.
  replace (Z.to_nat (Z.of_nat (S n) - Z.of_nat n)) with 1%nat by lia.
  simpl. f_equal. lia.
Qed.

Lemma filter_none {A} (p : A -> bool) (l : list A) :
  (forall a, In a l -> p a = false) -> filter p l = [].
Proof.
  induction l as [|a l IH]; intros H; simpl; [reflexivity|].
  rewrite (H a) by now left. apply IH. intros b Hb. apply H. now right.
Qed.

Lemma filter_all {A} (p : A -> bool) (l : list A) :
  (forall a, In a l -> p a = true) -> filter p l = l.
Proof.
  induction l as [|a l IH]; intros H; simpl; [reflexivity|].
  rewrite (H a) by now left. f_equal. apply IH. intros b Hb. apply H. now right.
Qed.

(** The passes that satisfy the guard [i >= iterations - last]. *)
Lemma kept_filter (iterations last : Z) :
  filter (fun i => (i >=? iterations - last)%Z) (range 0 iterations)
  = kept iterations last.
Proof.
  unfold kept.
  destruct (Z_le_gt_dec (Z.max 0 (iterations - last)) iterations) as [H|H].
  - rewrite (range_split 0 (Z.max 0 (iterations - last)) iterations) by lia.
    rewrite filter_app, filter_none, filter_all; [reflexivity| |].
    + intros a Ha. apply range_In in Ha. lia.
    + intros a Ha. apply range_In in Ha. lia.
  - rewrite (range_nil (Z.max 0 (iterations - last))) by lia.
    apply filter_none. intros a Ha. apply range_In in Ha. lia.
Qed.

Lemma kept_length (iterations last : Z) :
  (1 <= last <= iterations)%Z ->
  length (kept iterations last) = Z.to_nat last.
Proof. intros H. unfold kept. rewrite range_length. lia. Qed.


(** ** The lockstep loop in closed form *)

Lemma logistic_update_map (f : R -> R) (rs : list R) :
  logistic_update rs (map f rs) = map (fun r => logistic r (f r)) rs.
Proof.
  unfold logistic_update, one_minus, logistic.
  induction rs as [|r rs IH]; simpl; [reflexivity|]. now rewrite IH.
Qed.

Lemma logistic_update_orbit (rs : list R) (n : nat) :
  logistic_update rs (vec_orbit rs n) = vec_orbit rs (S n).
Proof. unfold vec_orbit. now rewrite logistic_update_map. Qed.

Lemma bifurcation_loop (rs : list R) (iterations last : Z) (n : nat) :
  fold_left (bifurcation_body rs iterations last) (range 0 (Z.of_nat n))
            (vec_orbit rs 0, [])
  = (vec_orbit rs n,
     map (frame_at rs)
         (filter (fun i => (i >=? iterations - last)%Z)
                 (range 0 (Z.of_nat n)))).
Proof.
  induction n as [|n IH].
  - reflexivity.
  - rewrite range_snoc, fold_left_app, IH, filter_app, map_app.
    simpl. rewrite logistic_update_orbit.
    destruct (Z.of_nat n >=? iterations - last)%Z; simpl.
    + unfold frame_at. now rewrite Nat2Z.id.
    + now rewrite app_nil_r.
Qed.

Lemma linspace_length (a b : R) (num : Z) (rs : list R) :
  linspace a b num = inr rs -> length rs = Z.to_nat num.
Proof.
  unfold linspace, raise. destruct (num <? 0)%Z; [discriminate|].
  intros H. injection H as <-.
  assert (L : forall y : list R, length (set_last y b) = length y).
  { intros [|u y]; [reflexivity|]. unfold set_last.
    rewrite length_app, removelast_firstn_len, length_firstn. simpl. lia. }
  assert (A : forall f, length (map (fun v => v + a) (map f (arange (Z.to_nat num))))
                        = Z.to_nat num).
  { intros f. unfold arange. now rewrite !length_map, length_seq. }
  destruct (1 <? num)%Z; [rewrite L|];
    destruct (0 <? num - 1)%Z; try destruct (Req_dec_T _ _); apply A.
Qed.

Lemma seed_vector (rs : list R) (steps : Z) :
  length rs = Z.to_nat steps ->
  map (fun v => seed * v) (repeat 1 (Z.to_nat steps)) = vec_orbit rs 0.
Proof.
  intros <-. unfold vec_orbit. induction rs as [|r rs IH]; simpl; [reflexivity|].
  rewrite IH. f_equal. apply Rmult_1_r.
Qed.

(** The function in closed form: the frames of the kept passes. *)
Lemma get_bifurcation_data_eq (min_r max_r : R) (steps iterations last : Z)
    (rs : list R) :
  linspace min_r max_r steps = inr rs ->
  get_bifurcation_data min_r max_r steps iterations last
  = pd_concat (map (frame_at rs) (kept iterations last)).
Proof.
  intros Hl. unfold get_bifurcation_data. rewrite Hl. simpl.
  pose proof (linspace_length _ _ _ _ Hl) as Hn.
  unfold linspace in Hl. unfold ones.
  destruct (steps <? 0)%Z; [discriminate|]. simpl.
  rewrite (seed_vector rs) by exact Hn.
  destruct (Z_le_gt_dec iterations 0) as [Hi|Hi].
  - rewrite (range_nil 0 iterations) by lia. simpl.
    unfold kept. now rewrite range_nil by lia.
  - replace iterations with (Z.of_nat (Z.to_nat iterations)) at 2 by lia.
    rewrite bifurcation_loop.
    replace (Z.of_nat (Z.to_nat iterations)) with iterations by lia.
    now rewrite kept_filter.
Qed.

(** ** The parameter sweep *)

Lemma set_last_snoc (l : list R) (y v : R) : set_last (l ++ [y]) v = l ++ [v].
Proof.
  unfold set_last. destruct (l ++ [y]) eqn:E.
  - now destruct l.
  - now rewrite <- E, removelast_last.
Qed.

Lemma linspace_zero (a b : R) : linspace a b 0 = inr [].
Proof. reflexivity. Qed.

Lemma linspace_one (a b : R) : linspace a b 1 = inr [a].
Proof.
  unfold linspace, arange. simpl. do 2 f_equal. ring.
Qed.

(** From two points on, the sweep is the evenly spaced grid. *)
Lemma linspace_grid (a b : R) (num : Z) :
  (2 <= num)%Z -> linspace a b num = inr (even_grid a b num).
Proof.
  intros H. unfold linspace, even_grid.
  replace (num <? 0)%Z with false by lia.
  replace (0 <? num - 1)%Z with true by lia.
  replace (1 <? num)%Z with true by lia.
  destruct (Z.to_nat num) as [|m] eqn:Em; [lia|].
  assert (Hd : IZR (num - 1) = INR m).
  { rewrite INR_IZR_INZ. f_equal. lia. }
  assert (Hm : INR m <> 0).
  { apply not_0_INR. lia. }
  rewrite Hd. f_equal. unfold arange.
  rewrite seq_S, !map_app. simpl.
  assert (G : forall f : R -> R,
             (forall v, f v = v * ((b - a) / INR m)) ->
             set_last (map (fun v => v + a) (map f (map INR (seq 0 m)))
                       ++ [f (INR m) + a]) b
             = map (fun i => a + INR i * ((b - a) / INR m)) (seq 0 m)
               ++ [a + INR m * ((b - a) / INR m)]).
  { intros f Hf. rewrite set_last_snoc. f_equal.
    - rewrite !map_map. apply map_ext. intros i. rewrite Hf. ring.
    - f_equal. field. exact Hm. }
  destruct (Req_dec_T ((b - a) / INR m) 0) as [Hz|Hz].
  - rewrite !map_app. simpl.
    apply (G (fun v => v / INR m * (b - a))). intros v. field. exact Hm.
  - rewrite !map_app. simpl.
    apply (G (fun v => v * ((b - a) / INR m))). reflexivity.
Qed.


Lemma even_grid_In (a b : R) (num : Z) (r : R) :
  In r (even_grid a b num) ->
  exists i, (i < Z.to_nat num)%nat /\
            r = a + INR i * ((b - a) / IZR (num - 1)).
Proof.
  unfold even_grid. rewrite in_map_iff. intros (i & <- & Hi).
  apply in_seq in Hi. exists i. split; [lia | reflexivity].
Qed.

Lemma even_grid_bounds (a b : R) (num : Z) (r : R) :
  (2 <= num)%Z -> a <= b -> In r (even_grid a b num) -> a <= r <= b.
Proof.
  intros Hn Hab Hr. apply even_grid_In in Hr as (i & Hi & ->).
  assert (Hd : IZR (num - 1) = INR (Z.to_nat num - 1)).
  { rewrite INR_IZR_INZ. f_equal. lia. }
  rewrite Hd.
  assert (Hpos : 0 < INR (Z.to_nat num - 1)) by (apply lt_0_INR; lia).
  assert (Hi0 : 0 <= INR i) by apply pos_INR.
  assert (Hi1 : INR i <= INR (Z.to_nat num - 1)) by (apply le_INR; lia).
  set (d := INR (Z.to_nat num - 1)) in *.
  assert (Hq : 0 <= INR i / d <= 1).
  { split.
    - apply Rmult_le_pos; [exact Hi0|]. left. now apply Rinv_0_lt_compat.
    - apply (Rmult_le_reg_r d); [exact Hpos|].
      unfold Rdiv. rewrite Rmult_assoc, Rinv_l by lra. lra. }
  replace (INR i * ((b - a) / d)) with ((INR i / d) * (b - a))
    by (field; lra).
  nra.
Qed.

(** Every value of a sweep lies between its end points. *)
Lemma linspace_bounds (a b : R) (num : Z) (rs : list R) (r : R) :
  a <= b -> linspace a b num = inr rs -> In r rs -> a <= r <= b.
Proof.
  intros Hab Hl Hr.
  destruct (Z_lt_le_dec num 2) as [Hs|Hs].
  - destruct (Z_lt_le_dec num 0) as [Hneg|Hnn].
    + unfold linspace in Hl. replace (num <? 0)%Z with true in Hl by lia.
      discriminate.
    + assert (E : num = 0%Z \/ num = 1%Z) by lia.
      destruct E as [-> | ->].
      * rewrite linspace_zero in Hl. injection Hl as <-. destruct Hr.
      * rewrite linspace_one in Hl. injection Hl as <-.
        destruct Hr as [<-|[]]. lra.
  - rewrite linspace_grid in Hl by exact Hs. injection Hl as <-.
    now apply (even_grid_bounds a b num).
Qed.



Lemma linspace_In_grid (a b : R) (num : Z) (rs : list R) (r : R) :
  (1 <= num)%Z -> linspace a b num = inr rs -> In r rs ->
  exists i, (i < Z.to_nat num)%nat /\
            r = a + INR i * ((b - a) / IZR (num - 1)).
Proof.
  intros Hn Hl Hr.
  destruct (Z.eq_dec num 1) as [->|Hne].
  - rewrite linspace_one in Hl. injection Hl as <-.
    destruct Hr as [<-|[]]. exists 0%nat. split; [simpl; lia|]. simpl. ring.
  - rewrite linspace_grid in Hl by lia. injection Hl as <-.
    now apply even_grid_In.
Qed.

Lemma linspace_returns (a b : R) (num : Z) :
  (0 <= num)%Z -> exists rs, linspace a b num = inr rs.
Proof.
  intros H. unfold linspace. replace (num <? 0)%Z with false by lia.
  eexists. reflexivity.
Qed.

(** ** Frames *)

Lemma frame_from_map (f : R -> R) (rs : list R) :
  forall k,
    frame_from k rs (map f rs)
    = map (fun p => mk_row (fst p) (snd p) (f (snd p)))
          (combine (seq k (length rs)) rs).
Proof.
  induction rs as [|r rs IH]; intros k; simpl; [reflexivity|].
  now rewrite IH.
Qed.

Lemma frame_at_eq (rs : list R) (i : Z) :
  frame_at rs i
  = map (fun p => mk_row (fst p) (snd p) (orbit (snd p) (S (Z.to_nat i))))
        (combine (seq 0 (length rs)) rs).
Proof. unfold frame_at, make_frame, vec_orbit. apply frame_from_map. Qed.

Lemma frame_at_length (rs : list R) (i : Z) :
  length (frame_at rs i) = length rs.
Proof.
  rewrite frame_at_eq, length_map, length_combine, length_seq. lia.
Qed.

Lemma combine_seq_In (rs : list R) (k : nat) (r : R) :
  forall s, In (k, r) (combine (seq s (length rs)) rs) ->
            (s <= k)%nat /\ nth_error rs (k - s) = Some r.
Proof.
  induction rs as [|u rs IH]; intros s H; simpl in H; [destruct H|].
  destruct H as [H|H].
  - injection H as <- <-. split; [lia|]. now rewrite Nat.sub_diag.
  - apply IH in H as [H1 H2]. split; [lia|].
    replace (k - s)%nat with (S (k - S s)) by lia. exact H2.
Qed.

(** A row of the frame of pass [i]: its label is the position of its
    growth rate in the sweep and its state is the orbit of the seed. *)
Lemma frame_at_In (rs : list R) (i : Z) (rw : row) :
  In rw (frame_at rs i) ->
  nth_error rs (label rw) = Some (r_col rw) /\
  x_col rw = orbit (r_col rw) (S (Z.to_nat i)).
Proof.
  rewrite frame_at_eq, in_map_iff. intros ([k r] & <- & H). simpl.
  apply combine_seq_In in H as [_ H]. rewrite Nat.sub_0_r in H.
  split; [exact H | reflexivity].
Qed.

Lemma concat_frames_length (rs : list R) (l : list Z) :
  length (concat (map (frame_at rs) l)) = (length l * length rs)%nat.
Proof.
  induction l as [|i l IH]; simpl; [reflexivity|].
  now rewrite length_app, frame_at_length, IH.
Qed.

Lemma pd_concat_frames (rs : list R) (l : list Z) :
  l <> [] ->
  pd_concat (map (frame_at rs) l) = inr (concat (map (frame_at rs) l)).
Proof. destruct l; [congruence | reflexivity]. Qed.

Lemma kept_nonempty (iterations last : Z) :
  (1 <= last)%Z -> (1 <= iterations)%Z -> kept iterations last <> [].
Proof.
  intros H1 H2 E. apply (f_equal (@length Z)) in E.
  unfold kept in E. rewrite range_length in E. simpl in E. lia.
Qed.

(** For admissible integer arguments the function returns the frames of
    the kept passes, one after the other. *)
Lemma get_bifurcation_data_returns (min_r max_r : R)
    (steps iterations last : Z) :
  (0 <= steps)%Z -> (1 <= last)%Z -> (1 <= iterations)%Z ->
  exists rs,
    linspace min_r max_r steps = inr rs /\
    length rs = Z.to_nat steps /\
    get_bifurcation_data min_r max_r steps iterations last
    = inr (concat (map (frame_at rs) (kept iterations last))).
Proof.
  intros Hs Hl Hi.
  destruct (linspace_returns min_r max_r steps Hs) as [rs Hrs].
  exists rs. split; [exact Hrs|]. split; [now apply linspace_length in Hrs|].
  rewrite (get_bifurcation_data_eq _ _ _ _ _ rs Hrs).
  apply pd_concat_frames. now apply kept_nonempty.
Qed.

Lemma concat_frames_In (rs : list R) (l : list Z) (rw : row) :
  In rw (concat (map (frame_at rs) l)) ->
  exists i, In i l /\ In rw (frame_at rs i).
Proof.
  rewrite in_concat. intros (fr & Hfr & Hrw).
  apply in_map_iff in Hfr as (i & <- & Hi). now exists i.
Qed.

(** C1: for every valid input the sweep returns exactly [steps * last]
    samples, and the growth rate of every sample lies in
    [[min_r, max_r]] and is one of the [steps] evenly spaced values of
    the sweep. *)
Theorem generate_sample_count (min_r max_r : R) (steps iterations last : Z) :
  min_r < max_r -> (1 <= steps)%Z -> (1 <= last <= iterations)%Z ->
  exists rs df,
    linspace min_r max_r steps = inr rs /\
    Z.of_nat (length rs) = steps /\
    get_bifurcation_data min_r max_r steps iterations last = inr df /\
    Z.of_nat (length df) = (steps * last)%Z /\
    forall rw, In rw df ->
      min_r <= r_col rw <= max_r /\
      In (r_col rw) rs /\
      exists i, (Z.of_nat i < steps)%Z /\
        r_col rw = min_r + INR i * ((max_r - min_r) / IZR (steps - 1)).
Proof.
  intros Hr Hs Hl.
  destruct (get_bifurcation_data_returns min_r max_r steps iterations last)
    as (rs & Hrs & Hlen & Hdf); try lia.
  exists rs, (concat (map (frame_at rs) (kept iterations last))).
  split; [exact Hrs|]. split; [lia|]. split; [exact Hdf|]. split.
  - rewrite concat_frames_length, kept_length, Hlen by lia. lia.
  - intros rw Hrw. apply concat_frames_In in Hrw as (i & _ & Hrw).
    apply frame_at_In in Hrw as [Hnth _]. apply nth_error_In in Hnth.
    split; [|split].
    + apply (linspace_bounds min_r max_r steps rs); [lra | exact Hrs | exact Hnth].
    + exact Hnth.
    + destruct (linspace_In_grid _ _ _ _ _ Hs Hrs Hnth) as (k & Hk & E).
      exists k. split; [lia | exact E].
Qed.

(** The call made by [main], with the defaults written out, yields
    80,000 samples. *)
Lemma generate_sample_count_main :
  2.5 < 4 /\ (1 <= 800)%Z /\ (1 <= 100 <= 1000)%Z /\
  exists df, get_bifurcation_data 2.5 4 800 1000 100 = inr df /\
             Z.of_nat (length df) = 80000%Z.
Proof.
  assert (H1 : 2.5 < 4) by lra.
  assert (H2 : (1 <= 800)%Z) by lia.
  assert (H3 : (1 <= 100 <= 1000)%Z) by lia.
  repeat split; try assumption; try lia.
  destruct (generate_sample_count 2.5 4 800 1000 100 H1 H2 H3)
    as (rs & df & _ & _ & Hdf & Hlen & _).
  exists df. split; [exact Hdf | exact Hlen].
Defined.

(** ** The shape of the sweep *)




(** ** States stay in the unit interval *)

Lemma logistic_unit_interval (r x : R) :
  0 <= r <= 4 -> 0 <= x <= 1 -> 0 <= logistic r x <= 1.
Proof.
  intros Hr Hx. unfold logistic.
  assert (H : 0 <= x * (1 - x) <= 1 / 4).
  { split; [apply Rmult_le_pos; lra|].
    pose proof (pow2_ge_0 (x - 1 / 2)). nra. }
  rewrite Rmult_assoc. set (p := x * (1 - x)) in *. nra.
Qed.

Lemma seed_unit_interval : 0 <= seed <= 1.
Proof. unfold seed. lra. Qed.

Lemma orbit_unit_interval (r : R) (n : nat) :
  0 <= r <= 4 -> 0 <= orbit r n <= 1.
Proof.
  intros Hr. induction n as [|n IH]; simpl.
  - apply seed_unit_interval.
  - now apply logistic_unit_interval.
Qed.

(** The invariant on the whole state vector: one pass of the loop body
    keeps every state in [[0, 1]]. *)
Lemma logistic_update_unit_interval (rs xs : list R) :
  Forall (fun r => 0 <= r <= 4) rs ->
  Forall (fun x => 0 <= x <= 1) xs ->
  Forall (fun x => 0 <= x <= 1) (logistic_update rs xs).
Proof.
  intros Hrs. revert xs. unfold logistic_update, one_minus.
  induction Hrs as [|r rs Hr Hrs IH]; intros xs Hxs; simpl.
  - constructor.
  - destruct Hxs as [|x xs Hx Hxs]; simpl; constructor.
    + now apply (logistic_unit_interval r x).
    + now apply IH.
Qed.

(** C10: when the sweep range lies in [[0, 4]], every state of every
    sample returned is in [[0, 1]]. *)
Theorem generate_states_in_unit_interval (min_r max_r : R)
    (steps iterations last : Z) :
  0 <= min_r -> min_r <= max_r -> max_r <= 4 ->
  (1 <= steps)%Z -> (1 <= last <= iterations)%Z ->
  exists df,
    get_bifurcation_data min_r max_r steps iterations last = inr df /\
    forall rw, In rw df -> 0 <= x_col rw <= 1.
Proof.
  intros H0 Hr H4 Hs Hl.
  destruct (get_bifurcation_data_returns min_r max_r steps iterations last)
    as (rs & Hrs & _ & Hdf); try lia.
  eexists. split; [exact Hdf|].
  intros rw Hrw. apply concat_frames_In in Hrw as (i & _ & Hrw).
  apply frame_at_In in Hrw as [Hnth ->]. apply nth_error_In in Hnth.
  apply orbit_unit_interval.
  pose proof (linspace_bounds _ _ _ _ _ Hr Hrs Hnth). lra.
Qed.

Lemma generate_states_in_unit_interval_main :
  0 <= 2.5 /\ 2.5 <= 4 /\ 4 <= 4 /\ (1 <= 800)%Z /\ (1 <= 100 <= 1000)%Z /\
  exists df,
    get_bifurcation_data 2.5 4 800 1000 100 = inr df /\
    forall rw, In rw df -> 0 <= x_col rw <= 1.
Proof.
  assert (H0 : 0 <= 2.5) by lra.
  assert (H1 : 2.5 <= 4) by lra.
  assert (H2 : 4 <= 4) by lra.
  assert (H3 : (1 <= 800)%Z) by lia.
  assert (H4 : (1 <= 100 <= 1000)%Z) by lia.
  repeat (split; [assumption|]).
  exact (generate_states_in_unit_interval 2.5 4 800 1000 100 H0 H1 H2 H3 H4).
Defined.

(** ** Lockstep iteration against the per-parameter loop *)

Lemma scalar_loop (r : R) (iterations last : Z) (n : nat) :
  fold_left (scalar_body r iterations last) (range 0 (Z.of_nat n)) (seed, [])
  = (orbit r n,
     map (fun i => orbit r (S (Z.to_nat i)))
         (filter (fun i => (i >=? iterations - last)%Z)
                 (range 0 (Z.of_nat n)))).
Proof.
  induction n as [|n IH].
  - reflexivity.
  - rewrite range_snoc, fold_left_app, IH, filter_app, map_app. simpl.
    fold (logistic r (orbit r n)).
    destruct (Z.of_nat n >=? iterations - last)%Z; simpl.
    + now rewrite Nat2Z.id.
    + now rewrite app_nil_r.
Qed.

Lemma trajectory_tail_eq (r : R) (iterations last : Z) :
  trajectory_tail r iterations last
  = map (fun i => orbit r (S (Z.to_nat i))) (kept iterations last).
Proof.
  unfold trajectory_tail.
  destruct (Z_le_gt_dec iterations 0) as [Hi|Hi].
  - rewrite (range_nil 0 iterations) by lia. unfold kept.
    now rewrite range_nil by lia.
  - replace iterations with (Z.of_nat (Z.to_nat iterations)) at 2 by lia.
    rewrite scalar_loop.
    replace (Z.of_nat (Z.to_nat iterations)) with iterations by lia.
    now rewrite kept_filter.
Qed.

Lemma per_parameter_from_eq (iterations last : Z) (rs : list R) :
  forall k,
    per_parameter_from k rs iterations last
    = flat_map (fun p => map (fun i => mk_row (fst p) (snd p)
                                         (orbit (snd p) (S (Z.to_nat i))))
                             (kept iterations last))
               (combine (seq k (length rs)) rs).
Proof.
  induction rs as [|r rs IH]; intros k; simpl; [reflexivity|].
  now rewrite IH, trajectory_tail_eq, map_map.
Qed.

Lemma flat_map_cons_split {A B} (g : A -> B) (h : A -> list B) (l : list A) :
  Permutation (flat_map (fun a => g a :: h a) l) (map g l ++ flat_map h l).
Proof.
  induction l as [|a l IH]; simpl; [constructor|].
  constructor. rewrite IH. apply Permutation_app_swap_app.
Qed.

(** Rows first or columns first: the same entries. *)
Lemma flat_map_transpose {A B C} (f : A -> B -> C) (la : list A) (lb : list B) :
  Permutation (flat_map (fun a => map (f a) lb) la)
              (flat_map (fun b => map (fun a => f a b) la) lb).
Proof.
  induction la as [|a la IH]; simpl.
  - induction lb as [|b lb IHb]; simpl; [constructor | exact IHb].
  - rewrite IH. symmetry. apply flat_map_cons_split.
Qed.

Lemma pick_cons (s k : nat) (r : R) (rs : list R) :
  pick s k (r :: rs) = if (s =? k)%nat then Some r else pick (S s) k rs.
Proof.
  unfold pick.
  destruct (Nat.eqb_spec s k) as [->|Hne].
  - now rewrite Nat.leb_refl, Nat.sub_diag.
  - destruct (Nat.leb_spec s k) as [Hle|Hgt].
    + replace (S s <=? k)%nat with true by (symmetry; apply Nat.leb_le; lia).
      now replace (k - s)%nat with (S (k - S s)) by lia.
    + now replace (S s <=? k)%nat with false
        by (symmetry; apply Nat.leb_gt; lia).
Qed.

Lemma pick_above (k : nat) (rs : list R) : pick (S k) k rs = None.
Proof.
  unfold pick. now replace (S k <=? k)%nat with false
    by (symmetry; apply Nat.leb_gt; lia).
Qed.

Lemma filter_flat_map {A B} (p : B -> bool) (f : A -> list B) (l : list A) :
  filter p (flat_map f l) = flat_map (fun a => filter p (f a)) l.
Proof.
  induction l as [|a l IH]; simpl; [reflexivity|].
  now rewrite filter_app, IH.
Qed.

(** Selecting one label from rows grouped by position in the sweep. *)
Lemma rows_at_grouped (h : nat * R -> DataFrame) (k : nat) :
  (forall p rw, In rw (h p) -> label rw = fst p) ->
  forall rs s,
    rows_at k (flat_map h (combine (seq s (length rs)) rs))
    = match pick s k rs with Some r => h (k, r) | None => [] end.
Proof.
  intros Hh. unfold rows_at.
  induction rs as [|r rs IH]; intros s.
  - simpl. unfold pick. destruct (s <=? k)%nat; [|reflexivity].
    now destruct (k - s)%nat.
  - simpl. rewrite filter_app, IH, pick_cons.
    destruct (Nat.eqb_spec s k) as [->|Hne].
    + rewrite pick_above, app_nil_r. apply filter_all.
      intros rw Hrw. apply Hh in Hrw. simpl in Hrw. now apply Nat.eqb_eq.
    + rewrite filter_none; [reflexivity|].
      intros rw Hrw. apply Hh in Hrw. simpl in Hrw. apply Nat.eqb_neq. lia.
Qed.

Lemma flat_map_singleton {A B} (f : A -> B) (l : list A) :
  flat_map (fun a => [f a]) l = map f l.
Proof. induction l as [|a l IH]; simpl; [reflexivity | now rewrite IH]. Qed.

Lemma flat_map_nil {A B} (l : list A) :
  flat_map (fun _ : A => @nil B) l = [].
Proof. induction l as [|a l IH]; simpl; [reflexivity | exact IH]. Qed.

Lemma rows_at_frame (rs : list R) (k : nat) (i : Z) :
  rows_at k (frame_at rs i) = column k rs [i].
Proof.
  rewrite frame_at_eq, <- flat_map_singleton.
  rewrite (rows_at_grouped
             (fun p => [mk_row (fst p) (snd p)
                          (orbit (snd p) (S (Z.to_nat i)))])).
  - unfold column. now destruct (pick 0 k rs).
  - intros p rw [<-|[]]. reflexivity.
Qed.

(** The rows with label [k] of the lockstep result. *)
Lemma rows_at_lockstep (rs : list R) (k : nat) (passes : list Z) :
  rows_at k (concat (map (frame_at rs) passes)) = column k rs passes.
Proof.
  rewrite <- flat_map_concat_map. unfold rows_at. rewrite filter_flat_map.
  fold (rows_at k).
  rewrite (flat_map_ext _ (fun i => column k rs [i]))
    by (intros i; apply rows_at_frame).
  unfold column. destruct (pick 0 k rs).
  - simpl. apply flat_map_singleton.
  - apply flat_map_nil.
Qed.

(** The rows with label [k] of the per-parameter result. *)
Lemma rows_at_per_parameter (rs : list R) (k : nat) (iterations last : Z) :
  rows_at k (per_parameter_from 0 rs iterations last)
  = column k rs (kept iterations last).
Proof.
  rewrite per_parameter_from_eq, rows_at_grouped.
  - reflexivity.
  - intros p rw Hrw. apply in_map_iff in Hrw as (i & <- & _). reflexivity.
Qed.

Lemma lockstep_permutation (rs : list R) (iterations last : Z) :
  Permutation (concat (map (frame_at rs) (kept iterations last)))
              (per_parameter_from 0 rs iterations last).
Proof.
  rewrite per_parameter_from_eq, <- flat_map_concat_map.
  rewrite (flat_map_ext _ (fun i =>
             map (fun p => mk_row (fst p) (snd p)
                                  (orbit (snd p) (S (Z.to_nat i))))
                 (combine (seq 0 (length rs)) rs)))
    by (intros i; apply frame_at_eq).
  symmetry.
  apply (flat_map_transpose
           (fun p i => mk_row (fst p) (snd p) (orbit (snd p) (S (Z.to_nat i))))).
Qed.

(** C8: the lockstep sweep and the loop that runs one growth rate at a
    time to completion return the same samples: for every sweep index
    the same rows in the same order, and overall the same rows up to
    order. *)
Theorem lockstep_equals_per_parameter (min_r max_r : R)
    (steps iterations last : Z) :
  (0 <= steps)%Z -> (1 <= last)%Z -> (1 <= iterations)%Z ->
  exists df ref,
    get_bifurcation_data min_r max_r steps iterations last = inr df /\
    generate_per_parameter min_r max_r steps iterations last = inr ref /\
    Permutation df ref /\
    forall k, rows_at k df = rows_at k ref.
Proof.
  intros Hs Hl Hi.
  destruct (get_bifurcation_data_returns min_r max_r steps iterations last
              Hs Hl Hi) as (rs & Hrs & _ & Hdf).
  exists (concat (map (frame_at rs) (kept iterations last))),
         (per_parameter_from 0 rs iterations last).
  split; [exact Hdf|]. split.
  - unfold generate_per_parameter. now rewrite Hrs.
  - split; [apply lockstep_permutation|].
    intros k. now rewrite rows_at_lockstep, rows_at_per_parameter.
Qed.

Lemma lockstep_equals_per_parameter_main :
  (0 <= 800)%Z /\ (1 <= 100)%Z /\ (1 <= 1000)%Z /\
  exists df ref,
    get_bifurcation_data 2.5 4 800 1000 100 = inr df /\
    generate_per_parameter 2.5 4 800 1000 100 = inr ref /\
    Permutation df ref /\
    forall k, rows_at k df = rows_at k ref.
Proof.
  assert (H1 : (0 <= 800)%Z) by lia.
  assert (H2 : (1 <= 100)%Z) by lia.
  assert (H3 : (1 <= 1000)%Z) by lia.
  repeat (split; [assumption|]).
  exact (lockstep_equals_per_parameter 2.5 4 800 1000 100 H1 H2 H3).
Defined.

(** ** Convergence to the fixed point at r = 2.5 *)













(** ** Arrays *)

Lemma update_length (a : list R) (v : R) :
  forall k, length (update a k v) = length a.
Proof.
  induction a as [|u a IH]; intros [|k]; simpl; try reflexivity.
  now rewrite IH.
Qed.

Lemma update_nth_same (a : list R) (v d : R) :
  forall k, (k < length a)%nat -> nth k (update a k v) d = v.
Proof.
  induction a as [|u a IH]; intros [|k] H; simpl in *; try lia.
  - reflexivity.
  - apply IH. lia.
Qed.

Lemma update_nth_other (a : list R) (v d : R) :
  forall k j, j <> k -> nth j (update a k v) d = nth j a d.
Proof.
  induction a as [|u a IH]; intros [|k] [|j] H; simpl; try reflexivity.
  - congruence.
  - apply IH. congruence.
Qed.

Lemma norm_index_in_range (n k : nat) :
  (k < n)%nat -> norm_index n (Z.of_nat k) = inr k.
Proof.
  intros H. unfold norm_index.
  replace (Z.of_nat k <? 0)%Z with false by lia.
  replace ((Z.of_nat k <? 0)%Z || (Z.of_nat n <=? Z.of_nat k)%Z) with false
    by (symmetry; apply orb_false_intro; lia).
  now rewrite Nat2Z.id.
Qed.

Lemma getitem_in_range (a : list R) (k : nat) :
  (k < length a)%nat -> getitem a (Z.of_nat k) = inr (nth k a 0).
Proof. intros H. unfold getitem. now rewrite norm_index_in_range. Qed.

Lemma setitem_in_range (a : list R) (k : nat) (v : R) :
  (k < length a)%nat -> setitem a (Z.of_nat k) v = inr (update a k v).
Proof. intros H. unfold setitem. now rewrite norm_index_in_range. Qed.

Lemma setitem_first (a : list R) (v : R) :
  (0 < length a)%nat -> setitem a 0 v = inr (update a 0 v).
Proof. intros H. exact (setitem_in_range a 0 v H). Qed.

Lemma range_snoc_from (lo : Z) (m : nat) :
  range lo (lo + Z.of_nat (S m))
  = range lo (lo + Z.of_nat m) ++ [(lo + Z.of_nat m)%Z].
Proof.
  unfold range.
  replace (Z.to_nat (lo + Z.of_nat (S m) - lo)) with (S m) by lia.
  replace (Z.to_nat (lo + Z.of_nat m - lo)) with m by lia.
  now rewrite seq_S, map_app.
Qed.

(** ** The noise floor *)

Lemma py_max_Rmax (a b : R) : py_max a b = Rmax b a.
Proof.
  unfold py_max, Rmax.
  destruct (Rlt_dec a b), (Rle_dec b a); lra.
Qed.

Lemma noise_floor (noise_level : R) : 0.0001 <= py_max 0.0001 noise_level.
Proof. unfold py_max. destruct (Rlt_dec 0.0001 noise_level); lra. Qed.

Lemma clip_unit (v : R) : 0 <= clip v 0 1 <= 1.
Proof.
  unfold clip, Rmin, Rmax.
  destruct (Rle_dec v 0); destruct (Rle_dec _ 1); lra.
Qed.

Lemma trajectory_unit (r : R) (noise : nat -> R) (t : nat) :
  0 <= trajectory r noise t <= 1.
Proof. destruct t; simpl; [lra | apply clip_unit]. Qed.

(** The trajectory up to time [t] depends on the noise before [t] only. *)
Lemma trajectory_ext (r : R) (noise noise' : nat -> R) (t : nat) :
  (forall k, (k < t)%nat -> noise k = noise' k) ->
  trajectory r noise t = trajectory r noise' t.
Proof.
  induction t as [|t IH]; intros H; simpl; [reflexivity|].
  rewrite IH, H by auto with arith. reflexivity.
Qed.

(** ** The simulation loop *)

Section Simulation.

Variable RandomState : Type.
Variable gauss : R -> R -> RandomState -> R * RandomState.
Variables r noise_level : R.

Let sigma : R := py_max 0.0001 noise_level.

Lemma for_each_app {S : Type} (body : S -> Z -> rnd RandomState S)
    (l1 l2 : list Z) :
  forall s g,
    for_each body (l1 ++ l2) s g
    = (p <- for_each body l1 s g ;; for_each body l2 (fst p) (snd p)).
Proof.
  induction l1 as [|t l1 IH]; intros s g; simpl; [reflexivity|].
  destruct (body s t g) as [e|p]; simpl; [reflexivity | apply IH].
Qed.

Lemma random_normal_floor (g : RandomState) :
  random_normal gauss 0 sigma g = inr (gauss 0 sigma g).
Proof.
  unfold random_normal. pose proof (noise_floor noise_level).
  fold sigma in H. destruct (Rlt_dec sigma 0); [lra | reflexivity].
Qed.

(** One pass of the body at a time [t] inside the array. *)
Lemma simulate_body_step (x : list R) (t : nat) (g : RandomState) :
  (t < length x)%nat ->
  simulate_body gauss r noise_level x (Z.of_nat (S t)) g
  = (x' <- setitem x (Z.of_nat (S t))
             (clip (r * nth t x 0 * (1 - nth t x 0) + fst (gauss 0 sigma g))
                   0 1) ;;
     inr (x', snd (gauss 0 sigma g))).
Proof.
  intros H. unfold simulate_body.
  replace (Z.of_nat (S t) - 1)%Z with (Z.of_nat t) by lia.
  rewrite getitem_in_range by exact H. simpl.
  fold sigma. rewrite random_normal_floor. reflexivity.
Qed.

(** The loop invariant: after the passes [1 .. m] the array holds the
    trajectory up to time [m], driven by the draws made so far. *)
Lemma simulate_loop (x0 : list R) (g : RandomState) (m : nat) :
  nth 0 x0 0 = 0.5 -> (m < length x0)%nat ->
  exists x,
    for_each (simulate_body gauss r noise_level)
             (range 1 (1 + Z.of_nat m)) x0 g
    = inr (x, state_at gauss sigma g m) /\
    length x = length x0 /\
    forall j, (j <= m)%nat -> nth j x 0 = trajectory r (draw gauss sigma g) j.
Proof.
  intros H0. induction m as [|m IH]; intros Hm.
  - exists x0. rewrite range_nil by lia. simpl. repeat split.
    intros j Hj. assert (j = 0%nat) as -> by lia. exact H0.
  - destruct IH as (x & Hx & Hlen & Hnth); [lia|].
    rewrite range_snoc_from, for_each_app, Hx.
    cbn [bind fst snd for_each].
    replace (1 + Z.of_nat m)%Z with (Z.of_nat (S m)) by lia.
    rewrite simulate_body_step by lia.
    rewrite setitem_in_range by lia. cbn [bind fst snd].
    eexists. split; [reflexivity|]. split.
    + now rewrite update_length.
    + intros j Hj. destruct (Nat.eq_dec j (S m)) as [->|Hne].
      * rewrite update_nth_same by lia. simpl.
        rewrite Hnth by lia. reflexivity.
      * rewrite update_nth_other by exact Hne. apply Hnth. lia.
Qed.

(** The function in closed form. *)
Lemma simulate_time_series_eq (steps : Z) (g : RandomState) :
  (1 <= steps)%Z ->
  simulate_time_series gauss r noise_level steps g
  = inr (map (trajectory r (draw gauss sigma g)) (seq 0 (Z.to_nat steps)),
         state_at gauss sigma g (Z.to_nat steps - 1)).
Proof.
  intros Hs. unfold simulate_time_series, zeros.
  replace (steps <? 0)%Z with false by lia. cbn [bind].
  set (n := Z.to_nat steps). assert (Hn : (0 < n)%nat) by lia.
  rewrite setitem_first by (rewrite repeat_length; lia). cbn [bind].
  destruct (simulate_loop (update (repeat 0 n) 0 0.5) g (n - 1))
    as (x & Hx & Hlen & Hnth).
  - apply update_nth_same. rewrite repeat_length. lia.
  - rewrite update_length, repeat_length. lia.
  - replace (range 1 steps) with (range 1 (1 + Z.of_nat (n - 1)))
      by (f_equal; lia).
    rewrite Hx. do 2 f_equal.
    rewrite update_length, repeat_length in Hlen.
    apply (nth_ext _ _ 0 0).
    + rewrite length_map, length_seq. exact Hlen.
    + intros j Hj.
      rewrite (nth_indep (map _ _) 0 (trajectory r (draw gauss sigma g) 0))
        by (rewrite length_map, length_seq; lia).
      rewrite map_nth, seq_nth by lia. apply Hnth. lia.
Qed.

End Simulation.

(** C2: for every growth rate, noise level and generator, and every
    [steps >= 1], the simulation returns [steps] values, the first one
    is 0.5 and all of them lie in [[0, 1]]. *)
Theorem simulate_in_unit_interval {RandomState : Type}
    (gauss : R -> R -> RandomState -> R * RandomState)
    (r noise_level : R) (steps : Z) (g : RandomState) :
  (1 <= steps)%Z ->
  exists xs g',
    simulate_time_series gauss r noise_level steps g = inr (xs, g') /\
    Z.of_nat (length xs) = steps /\
    hd_error xs = Some 0.5 /\
    Forall (fun v => 0 <= v <= 1) xs.
Proof.
  intros Hs. do 2 eexists. split.
  - apply simulate_time_series_eq. exact Hs.
  - cbv zeta. split; [|split].
    + rewrite length_map, length_seq. lia.
    + destruct (Z.to_nat steps) eqn:E; [lia | reflexivity].
    + apply Forall_forall. intros v Hv.
      apply in_map_iff in Hv as (t & <- & _). apply trajectory_unit.
Qed.

Lemma simulate_in_unit_interval_example :
  (1 <= 200)%Z /\
  exists xs g',
    simulate_time_series counter_gauss 3.8 0.01 200 0%nat = inr (xs, g') /\
    Z.of_nat (length xs) = 200%Z /\
    hd_error xs = Some 0.5 /\
    Forall (fun v => 0 <= v <= 1) xs.
Proof.
  assert (H : (1 <= 200)%Z) by lia.
  split; [exact H|].
  exact (simulate_in_unit_interval counter_gauss 3.8 0.01 200 0%nat H).
Defined.

(** C4: every value after the first is the clamped noisy image of its
    predecessor; the noise of step [t] is the draw number [t - 1] of the
    generator, made with mean 0 and standard deviation
    [max(noise_level, 1e-4)], which is never below 1e-4, and exactly
    [steps - 1] draws are made. *)
Theorem simulate_recurrence {RandomState : Type}
    (gauss : R -> R -> RandomState -> R * RandomState)
    (r noise_level : R) (steps : Z) (g : RandomState) :
  (1 <= steps)%Z ->
  exists xs g',
    simulate_time_series gauss r noise_level steps g = inr (xs, g') /\
    py_max 0.0001 noise_level = Rmax noise_level 1e-4 /\
    1e-4 <= Rmax noise_level 1e-4 /\
    g' = state_at gauss (Rmax noise_level 1e-4) g (Z.to_nat steps - 1) /\
    forall t, (1 <= t)%nat -> (Z.of_nat t < steps)%Z ->
      nth t xs 0
      = clip (r * nth (t - 1) xs 0 * (1 - nth (t - 1) xs 0)
              + draw gauss (Rmax noise_level 1e-4) g (t - 1)) 0 1.
Proof.
  intros Hs. do 2 eexists. split.
  - apply simulate_time_series_eq. exact Hs.
  - cbv zeta.
    assert (E : py_max 0.0001 noise_level = Rmax noise_level 1e-4).
    { rewrite py_max_Rmax. f_equal; lra. }
    rewrite E. split; [reflexivity|]. split; [|split; [reflexivity|]].
    + rewrite <- E. pose proof (noise_floor noise_level). lra.
    + intros t Ht1 Ht2.
      set (f := trajectory r (draw gauss (Rmax noise_level 1e-4) g)).
      rewrite !(nth_indep (map f _) 0 (f 0%nat))
        by (rewrite length_map, length_seq; lia).
      rewrite !map_nth, !seq_nth by lia. simpl.
      destruct t as [|t]; [lia|]. simpl. now rewrite Nat.sub_0_r.
Qed.

Lemma simulate_recurrence_example :
  (1 <= 200)%Z /\
  exists xs g',
    simulate_time_series counter_gauss 3.8 0 200 0%nat = inr (xs, g') /\
    py_max 0.0001 0 = Rmax 0 1e-4 /\
    1e-4 <= Rmax 0 1e-4 /\
    g' = state_at counter_gauss (Rmax 0 1e-4) 0%nat (Z.to_nat 200 - 1) /\
    forall t, (1 <= t)%nat -> (Z.of_nat t < 200)%Z ->
      nth t xs 0
      = clip (3.8 * nth (t - 1) xs 0 * (1 - nth (t - 1) xs 0)
              + draw counter_gauss (Rmax 0 1e-4) 0%nat (t - 1)) 0 1.
Proof.
  assert (H : (1 <= 200)%Z) by lia.
  split; [exact H|].
  exact (simulate_recurrence counter_gauss 3.8 0 200 0%nat H).
Defined.

(** C7: the trajectory is a function of the parameters and of the noise
    values drawn: two runs with the same [r], [noise_level] and [steps]
    whose generators deliver the same [steps - 1] draws return the same
    outcome, element for element. *)
Theorem simulate_deterministic {RS1 RS2 : Type}
    (gauss1 : R -> R -> RS1 -> R * RS1) (gauss2 : R -> R -> RS2 -> R * RS2)
    (r noise_level : R) (steps : Z) (g1 : RS1) (g2 : RS2) :
  (forall k, (Z.of_nat k < steps - 1)%Z ->
     draw gauss1 (py_max 0.0001 noise_level) g1 k
     = draw gauss2 (py_max 0.0001 noise_level) g2 k) ->
  outcome (simulate_time_series gauss1 r noise_level steps g1)
  = outcome (simulate_time_series gauss2 r noise_level steps g2).
Proof.
  intros H. destruct (Z_lt_le_dec steps 1) as [Hs|Hs].
  - unfold simulate_time_series, zeros.
    destruct (steps <? 0)%Z eqn:E; [reflexivity|].
    assert (steps = 0%Z) as -> by lia. reflexivity.
  - rewrite !simulate_time_series_eq by exact Hs. cbv zeta. simpl.
    f_equal. apply map_ext_in. intros t Ht. apply in_seq in Ht.
    apply trajectory_ext. intros k Hk. apply H. lia.
Qed.

(** Two runs of the counting generator that start two draws apart see
    the same noise and so return the same trajectory. *)
Lemma simulate_deterministic_example :
  (forall k, (Z.of_nat k < 3 - 1)%Z ->
     draw counter_gauss (py_max 0.0001 0.01) 0%nat k
     = draw counter_gauss (py_max 0.0001 0.01) 2%nat k) /\
  outcome (simulate_time_series counter_gauss 3.8 0.01 3 0%nat)
  = outcome (simulate_time_series counter_gauss 3.8 0.01 3 2%nat).
Proof.
  assert (H : forall k, (Z.of_nat k < 3 - 1)%Z ->
     draw counter_gauss (py_max 0.0001 0.01) 0%nat k
     = draw counter_gauss (py_max 0.0001 0.01) 2%nat k).
  { intros [|[|k]] Hk; [reflexivity | reflexivity | lia]. }
  split; [exact H|].
  exact (simulate_deterministic counter_gauss counter_gauss 3.8 0.01 3
           0%nat 2%nat H).
Defined.

(** ** Sums, deviations and the Cauchy-Schwarz inequality *)

Lemma rsum_map_zero {A} (f : A -> R) (l : list A) :
  (forall a, In a l -> f a = 0) -> rsum (map f l) = 0.
Proof.
  induction l as [|a l IH]; intros H; simpl; [reflexivity|].
  rewrite (H a) by now left. rewrite IH; [lra|].
  intros b Hb. apply H. now right.
Qed.


Lemma dot_comm (a : list R) : forall b, dot a b = dot b a.
Proof.
  unfold dot. induction a as [|u a IH]; intros [|v b]; simpl; try reflexivity.
  rewrite IH. ring.
Qed.

Lemma dot_self_nonneg (a : list R) : 0 <= dot a a.
Proof.
  unfold dot. induction a as [|u a IH]; simpl; [lra|].
  pose proof (Rle_0_sqr u) as Hu. unfold Rsqr in Hu. lra.
Qed.

Lemma cauchy_schwarz_step (u v p a b : R) :
  0 <= a -> 0 <= b -> p * p <= a * b ->
  (u * v + p) * (u * v + p) <= (u * u + a) * (v * v + b).
Proof.
  intros Ha Hb Hp.
  assert (Hx : 0 <= u * u * b + v * v * a).
  { pose proof (Rle_0_sqr u) as Hu. pose proof (Rle_0_sqr v) as Hv.
    unfold Rsqr in *. nra. }
  assert (Hsq : (2 * (u * v) * p) * (2 * (u * v) * p)
                <= (u * u * b + v * v * a) * (u * u * b + v * v * a)).
  { pose proof (Rle_0_sqr (u * u * b - v * v * a)) as H1.
    pose proof (Rle_0_sqr (u * v)) as H2. unfold Rsqr in *.
    assert (H3 : (u * v) * (u * v) * (p * p) <= (u * v) * (u * v) * (a * b))
      by (apply Rmult_le_compat_l; assumption).
    nra. }
  assert (Hy : 2 * (u * v) * p <= u * u * b + v * v * a).
  { destruct (Rle_lt_dec (2 * (u * v) * p) (u * u * b + v * v * a))
      as [H|H]; [exact H|]. nra. }
  nra.
Qed.

Lemma cauchy_schwarz (a : list R) :
  forall b, dot a b * dot a b <= dot a a * dot b b.
Proof.
  induction a as [|u a IH]; intros [|v b].
  - unfold dot. simpl. lra.
  - unfold dot at 1 2 3. simpl. lra.
  - pose proof (dot_self_nonneg (u :: a)). unfold dot at 1 2 4. simpl. lra.
  - specialize (IH b).
    pose proof (dot_self_nonneg a). pose proof (dot_self_nonneg b).
    unfold dot in *. simpl. now apply cauchy_schwarz_step.
Qed.

Lemma dot_zero_left (a b : list R) : dot a a = 0 -> dot a b = 0.
Proof.
  intros H. pose proof (cauchy_schwarz a b) as HC. rewrite H in HC.
  pose proof (Rle_0_sqr (dot a b)) as Hs. unfold Rsqr in Hs. nra.
Qed.

Lemma dot_center_self (a : list R) : dot (center a) (center a) = sum_sq_dev a.
Proof.
  unfold dot, center, sum_sq_dev, rsum. generalize (mean a) as m. intros m.
  induction a as [|u a IH]; cbn [map ew_mul fold_right]; [reflexivity|].
  rewrite IH. ring.
Qed.

Lemma dot_center_cross (a b : list R) :
  dot (center a) (center b) = sum_cross_dev a b.
Proof.
  unfold dot, center, sum_cross_dev.
  generalize (mean a) as m, (mean b) as m'. intros m m'. revert b.
  induction a as [|u a IH]; intros [|v b]; simpl; try reflexivity.
  now rewrite IH.
Qed.

Lemma sum_cross_dev_comm (a b : list R) :
  sum_cross_dev a b = sum_cross_dev b a.
Proof. now rewrite <- !dot_center_cross, dot_comm. Qed.

Lemma sum_sq_dev_nonneg (a : list R) : 0 <= sum_sq_dev a.
Proof. rewrite <- dot_center_self. apply dot_self_nonneg. Qed.

Lemma pearson_comm (a b : list R) : pearson a b = pearson b a.
Proof.
  unfold pearson. rewrite sum_cross_dev_comm. f_equal. ring.
Qed.

(** Pearson's coefficient lies in [[-1, 1]]. *)
Lemma pearson_bounds (a b : list R) :
  sum_sq_dev a <> 0 -> sum_sq_dev b <> 0 -> -1 <= pearson a b <= 1.
Proof.
  intros Ha Hb. unfold pearson.
  pose proof (sum_sq_dev_nonneg a) as Ha0.
  pose proof (sum_sq_dev_nonneg b) as Hb0.
  pose proof (cauchy_schwarz (center a) (center b)) as HC.
  rewrite !dot_center_self, dot_center_cross in HC.
  set (c := sum_cross_dev a b) in *.
  assert (Hsa : 0 < sqrt (sum_sq_dev a)) by (apply sqrt_lt_R0; lra).
  assert (Hsb : 0 < sqrt (sum_sq_dev b)) by (apply sqrt_lt_R0; lra).
  set (d := sqrt (sum_sq_dev a) * sqrt (sum_sq_dev b)).
  assert (Hd : 0 < d) by (apply Rmult_lt_0_compat; assumption).
  assert (Hdd : d * d = sum_sq_dev a * sum_sq_dev b).
  { unfold d.
    replace (sqrt (sum_sq_dev a) * sqrt (sum_sq_dev b)
             * (sqrt (sum_sq_dev a) * sqrt (sum_sq_dev b)))
      with ((sqrt (sum_sq_dev a) * sqrt (sum_sq_dev a))
            * (sqrt (sum_sq_dev b) * sqrt (sum_sq_dev b))) by ring.
    rewrite !sqrt_sqrt by assumption. reflexivity. }
  assert (Hc : - d <= c <= d) by (split; nra).
  split.
  - apply (Rmult_le_reg_r d); [exact Hd|].
    unfold Rdiv. rewrite Rmult_assoc, Rinv_l by lra. lra.
  - apply (Rmult_le_reg_r d); [exact Hd|].
    unfold Rdiv. rewrite Rmult_assoc, Rinv_l by lra. lra.
Qed.

(** ** The pandas pipeline of the lag-1 autocorrelation *)

Lemma valid_pairs_present (a : list R) :
  forall b,
    valid_pairs (map Some a) (firstn (length a) (map Some b)) = combine a b.
Proof.
  induction a as [|u a IH]; intros [|v b]; simpl; try reflexivity.
  now rewrite IH.
Qed.

(** Shifting and dropping the missing position pairs every value with
    its predecessor. *)
Lemma lag_pairs (xs : list R) :
  valid_pairs (map Some xs) (shift1 xs) = combine (tl xs) xs.
Proof.
  destruct xs as [|x xs]; [reflexivity|].
  unfold shift1. cbn [length firstn map valid_pairs tl].
  apply (valid_pairs_present xs (x :: xs)).
Qed.

Lemma lag_pairs_fst (xs : list R) : map fst (combine (tl xs) xs) = tl xs.
Proof.
  destruct xs as [|x xs]; [reflexivity|]. simpl. revert x.
  induction xs as [|y xs IH]; intros x; simpl; [reflexivity|].
  now rewrite IH.
Qed.

Lemma lag_pairs_snd (xs : list R) :
  map snd (combine (tl xs) xs) = removelast xs.
Proof.
  destruct xs as [|x xs]; [reflexivity|]. cbn [tl]. revert x.
  induction xs as [|y xs IH]; intros x; [reflexivity|].
  cbn [combine map snd]. rewrite IH. reflexivity.
Qed.

Lemma lag_windows_length (xs : list R) :
  length (tl xs) = length (removelast xs).
Proof.
  rewrite removelast_firstn_len, length_firstn. destruct xs; simpl; lia.
Qed.

Lemma series_autocorr_eq (xs : list R) :
  series_autocorr xs
  = if (length xs <? 2)%nat then NaN
    else np_corrcoef (tl xs) (removelast xs).
Proof.
  unfold series_autocorr, series_corr, nancorr.
  rewrite lag_pairs, lag_pairs_fst, lag_pairs_snd.
  destruct xs as [|x [|y xs]]; reflexivity.
Qed.

Lemma np_div_fin (u v : R) : v <> 0 -> np_div (Fin u) (Fin v) = Fin (u / v).
Proof. intros H. simpl. destruct (Req_dec_T v 0); [contradiction | reflexivity]. Qed.

Lemma np_div_zero_zero (u v : R) :
  u = 0 -> v = 0 -> np_div (Fin u) (Fin v) = NaN.
Proof.
  intros -> ->. simpl.
  destruct (Req_dec_T 0 0); [reflexivity | contradiction].
Qed.

Lemma np_sqrt_fin (v : R) : 0 <= v -> np_sqrt (Fin v) = Fin (sqrt v).
Proof. intros H. simpl. destruct (Rlt_dec v 0); [lra | reflexivity]. Qed.

Lemma clip_inside (v lo hi : R) : lo <= v <= hi -> clip v lo hi = v.
Proof.
  intros H. unfold clip, Rmin, Rmax.
  destruct (Rle_dec v lo); destruct (Rle_dec _ hi); lra.
Qed.

Lemma mean_short (a : list R) :
  (length a <= 1)%nat -> forall v, In v a -> v - mean a = 0.
Proof.
  destruct a as [|u [|w a]]; simpl; intros H v Hv.
  - destruct Hv.
  - destruct Hv as [<-|[]]. unfold mean, rsum. simpl. field.
  - lia.
Qed.

Lemma sum_sq_dev_short (a : list R) :
  (length a <= 1)%nat -> sum_sq_dev a = 0.
Proof.
  intros H. unfold sum_sq_dev. apply rsum_map_zero.
  intros v Hv. rewrite (mean_short a H v Hv). ring.
Qed.

(** [np.corrcoef] on two windows of one length: undefined exactly when
    one of them has no spread, and Pearson's coefficient otherwise. *)
Lemma np_corrcoef_eq (a b : list R) :
  length a = length b ->
  np_corrcoef a b
  = if Req_dec_T (sum_sq_dev a) 0 then NaN
    else if Req_dec_T (sum_sq_dev b) 0 then NaN
    else Fin (pearson a b).
Proof.
  intros Hlen. unfold np_corrcoef, np_cov.
  rewrite !dot_center_self, dot_center_cross.
  pose proof (sum_sq_dev_nonneg a) as Ha0.
  pose proof (sum_sq_dev_nonneg b) as Hb0.
  assert (Hca : sum_sq_dev a = 0 -> sum_cross_dev a b = 0).
  { intros H. rewrite <- dot_center_cross. apply dot_zero_left.
    now rewrite dot_center_self. }
  assert (Hcb : sum_sq_dev b = 0 -> sum_cross_dev a b = 0).
  { intros H. rewrite sum_cross_dev_comm, <- dot_center_cross.
    apply dot_zero_left. now rewrite dot_center_self. }
  destruct (Rle_dec (INR (length a) - 1) 0) as [Hf|Hf].
  - assert (Hs : (length a <= 1)%nat).
    { apply INR_le. simpl. lra. }
    rewrite (sum_sq_dev_short a Hs).
    destruct (Req_dec_T 0 0) as [_|N]; [|contradiction].
    simpl. destruct (Req_dec_T 0 0) as [_|N]; [|contradiction].
    destruct (Req_dec_T 1 0) as [E|_]; [lra|].
    destruct (Req_dec_T 0 0) as [_|N]; [|contradiction].
    destruct (Req_dec_T (sum_cross_dev a b) 0); reflexivity.
  - set (f := INR (length a) - 1) in *.
    assert (Hfp : 0 < f) by lra.
    rewrite np_div_fin by lra. cbn [np_mul].
    assert (Hq : 0 < 1 / f) by (apply Rdiv_lt_0_compat; lra).
    rewrite !np_sqrt_fin by (apply Rmult_le_pos; lra).
    destruct (Req_dec_T (sum_sq_dev a) 0) as [Ea|Ea].
    + rewrite np_div_zero_zero; [reflexivity | |].
      * rewrite (Hca Ea). ring.
      * rewrite Ea, Rmult_0_l. apply sqrt_0.
    + assert (Hsa : 0 < sqrt (sum_sq_dev a * (1 / f))).
      { apply sqrt_lt_R0. apply Rmult_lt_0_compat; lra. }
      rewrite np_div_fin by lra.
      destruct (Req_dec_T (sum_sq_dev b) 0) as [Eb|Eb].
      * rewrite np_div_zero_zero; [reflexivity | |].
        -- rewrite (Hcb Eb). unfold Rdiv. ring.
        -- rewrite Eb, Rmult_0_l. apply sqrt_0.
      * assert (Hsb : 0 < sqrt (sum_sq_dev b * (1 / f))).
        { apply sqrt_lt_R0. apply Rmult_lt_0_compat; lra. }
        rewrite np_div_fin by lra. cbn [np_clip]. f_equal.
        assert (E : sum_cross_dev a b * (1 / f)
                    / sqrt (sum_sq_dev a * (1 / f))
                    / sqrt (sum_sq_dev b * (1 / f))
                    = pearson a b).
        { unfold pearson. rewrite !sqrt_mult by lra.
          assert (Hqq : sqrt (1 / f) * sqrt (1 / f) = 1 / f)
            by (apply sqrt_sqrt; lra).
          assert (Hq0 : 0 < sqrt (1 / f)) by (apply sqrt_lt_R0; lra).
          assert (Hra : 0 < sqrt (sum_sq_dev a)) by (apply sqrt_lt_R0; lra).
          assert (Hrb : 0 < sqrt (sum_sq_dev b)) by (apply sqrt_lt_R0; lra).
          set (q := sqrt (1 / f)) in *. rewrite <- Hqq.
          field. repeat split; lra. }
        rewrite E. apply clip_inside. now apply pearson_bounds.
Qed.

(** ** The metrics *)

Lemma series_var_eq (xs : list R) :
  series_var xs
  = if (length xs <=? 1)%nat then NaN else Fin (sample_variance xs).
Proof.
  unfold series_var, sample_variance, sum_sq_dev, mean.
  destruct (length xs <=? 1)%nat; [reflexivity|].
  do 3 f_equal. apply map_ext. intros v. ring.
Qed.

(** Both metrics in closed form. *)
Lemma compute_metrics_eq (xs : list R) :
  compute_metrics xs
  = ((if (length xs <? 2)%nat then Fin 0
      else if Req_dec_T (sum_sq_dev (tl xs)) 0 then Fin 0
      else if Req_dec_T (sum_sq_dev (removelast xs)) 0 then Fin 0
      else Fin (pearson (tl xs) (removelast xs))),
     (if (length xs <=? 1)%nat then Fin 0 else Fin (sample_variance xs))).
Proof.
  unfold compute_metrics.
  rewrite series_var_eq, series_autocorr_eq.
  rewrite (np_corrcoef_eq _ _ (lag_windows_length xs)).
  f_equal.
  - destruct (length xs <? 2)%nat; [reflexivity|].
    destruct (Req_dec_T (sum_sq_dev (tl xs)) 0); [reflexivity|].
    destruct (Req_dec_T (sum_sq_dev (removelast xs)) 0); reflexivity.
  - destruct (length xs <=? 1)%nat; reflexivity.
Qed.




(** C6: on a trajectory of at least two values the variance reported is
    the unbiased sample variance (divisor n - 1), and whenever both lag
    windows x[0..n-2] and x[1..n-1] have spread, so that Pearson's
    coefficient is defined, the autocorrelation reported is Pearson's
    coefficient of the two windows. *)
Theorem compute_metrics_statistics (xs : list R) :
  (2 <= length xs)%nat ->
  snd (compute_metrics xs) = Fin (sample_variance xs) /\
  (sum_sq_dev (removelast xs) <> 0 -> sum_sq_dev (tl xs) <> 0 ->
   fst (compute_metrics xs) = Fin (pearson (removelast xs) (tl xs))).
Proof.
  intros Hn. rewrite compute_metrics_eq. cbn [fst snd].
  replace (length xs <? 2)%nat with false
    by (symmetry; apply Nat.ltb_ge; lia).
  replace (length xs <=? 1)%nat with false
    by (symmetry; apply Nat.leb_gt; lia).
  split; [reflexivity|]. intros Ha Hb.
  destruct (Req_dec_T (sum_sq_dev (tl xs)) 0); [contradiction|].
  destruct (Req_dec_T (sum_sq_dev (removelast xs)) 0); [contradiction|].
  now rewrite pearson_comm.
Qed.

Lemma compute_metrics_statistics_example :
  (2 <= length [0; 1; 0])%nat /\
  sum_sq_dev (removelast [0; 1; 0]) <> 0 /\
  sum_sq_dev (tl [0; 1; 0]) <> 0 /\
  snd (compute_metrics [0; 1; 0]) = Fin (sample_variance [0; 1; 0]) /\
  fst (compute_metrics [0; 1; 0])
  = Fin (pearson (removelast [0; 1; 0]) (tl [0; 1; 0])).
Proof.
  assert (H1 : (2 <= length [0; 1; 0])%nat) by (simpl; lia).
  assert (H2 : sum_sq_dev (removelast [0; 1; 0]) <> 0).
  { unfold sum_sq_dev, mean, rsum. simpl. lra. }
  assert (H3 : sum_sq_dev (tl [0; 1; 0]) <> 0).
  { unfold sum_sq_dev, mean, rsum. simpl. lra. }
  destruct (compute_metrics_statistics [0; 1; 0] H1) as [Hv Ha].
  repeat split; try assumption. exact (Ha H2 H3).
Defined.

(** ** Concrete runs of the embedding *)

Example linspace_three_points : linspace 0 1 3 = inr [0; 0.5; 1].
Proof.
  unfold linspace, arange. simpl.
  destruct (Req_dec_T _ _); simpl; unfold set_last; simpl;
    repeat f_equal; lra.
Qed.

Example get_bifurcation_data_two_by_one :
  get_bifurcation_data 2 4 2 2 1
  = inr [mk_row 0 2 (logistic 2 (logistic 2 seed));
         mk_row 1 4 (logistic 4 (logistic 4 seed))].
Proof.
  unfold get_bifurcation_data, linspace, arange. simpl.
  destruct (Req_dec_T _ _); simpl;
    unfold set_last, logistic, make_frame; simpl; repeat f_equal; lra.
Qed.

Example get_bifurcation_data_no_pass_kept :
  get_bifurcation_data 2 4 2 2 0 = inl ValueError.
Proof.
  assert (H : (2 <= 2)%Z) by lia.
  rewrite (get_bifurcation_data_eq _ _ _ _ _ _ (linspace_grid 2 4 2 H)).
  reflexivity.
Qed.

Example simulate_three_steps :
  simulate_time_series counter_gauss 2 0 3 0%nat
  = inr ([0.5; 0.5003; 0.49969982], 2%nat).
Proof.
  unfold simulate_time_series. simpl. unfold simulate_body. simpl.
  unfold random_normal, py_max.
  destruct (Rlt_dec 0.0001 0); [lra|].
  destruct (Rlt_dec 0.0001 0); [lra|]. simpl.
  unfold clip, Rmin, Rmax. repeat (destruct (Rle_dec _ _)); simpl; try lra.
  all: repeat f_equal; try lra.
Qed.

Example simulate_no_steps :
  simulate_time_series counter_gauss 2 0 0 0%nat = inl IndexError.
Proof. reflexivity. Qed.

Example compute_metrics_zigzag :
  compute_metrics [0; 1; 0] = (Fin (-1), Fin (1 / 3)).
Proof.
  rewrite compute_metrics_eq. cbn [length Nat.ltb Nat.leb tl removelast].
  assert (Ha : sum_sq_dev [1; 0] = 1 / 2)
    by (unfold sum_sq_dev, mean, rsum; simpl; lra).
  assert (Hb : sum_sq_dev [0; 1] = 1 / 2)
    by (unfold sum_sq_dev, mean, rsum; simpl; lra).
  assert (Hc : sum_cross_dev [1; 0] [0; 1] = - (1 / 2))
    by (unfold sum_cross_dev, mean, rsum; simpl; lra).
  assert (Hv : sample_variance [0; 1; 0] = 1 / 3)
    by (unfold sample_variance, sum_sq_dev, mean, rsum; simpl; lra).
  unfold pearson. rewrite Ha, Hb, Hc, Hv, sqrt_sqrt by lra.
  destruct (Req_dec_T (1 / 2) 0); [lra|].
  do 2 f_equal. lra.
Qed.

(** * Further properties of the code *)

(** ** When the sweep returns, how many rows, and in which order *)

Lemma kept_length_general (iterations last : Z) :
  (1 <= last)%Z -> (1 <= iterations)%Z ->
  length (kept iterations last) = Z.to_nat (Z.min last iterations).
Proof. intros H1 H2. unfold kept. rewrite range_length. lia. Qed.

Lemma kept_empty (iterations last : Z) :
  (iterations < 1)%Z \/ (last < 1)%Z -> kept iterations last = [].
Proof. intros H. unfold kept. apply range_nil. lia. Qed.

(** The sweep returns exactly when [steps >= 0], [iterations >= 1] and
    [last >= 1]; every other call ends in a [ValueError], raised by
    [np.linspace] for a negative [steps] and by [pd.concat] when no
    pass was kept. *)
Theorem get_bifurcation_data_returns_iff (min_r max_r : R)
    (steps iterations last : Z) :
  ((0 <= steps)%Z /\ (1 <= iterations)%Z /\ (1 <= last)%Z /\
   exists df, get_bifurcation_data min_r max_r steps iterations last = inr df)
  \/
  (((steps < 0)%Z \/ (iterations < 1)%Z \/ (last < 1)%Z) /\
   get_bifurcation_data min_r max_r steps iterations last = inl ValueError).
Proof.
  destruct (Z_lt_le_dec steps 0) as [Hs|Hs].
  - right. split; [now left|].
    unfold get_bifurcation_data, linspace.
    replace (steps <? 0)%Z with true by lia. reflexivity.
  - destruct (Z_lt_le_dec iterations 1) as [Hi|Hi];
      [|destruct (Z_lt_le_dec last 1) as [Hl|Hl]].
    + right. split; [right; now left|].
      destruct (linspace_returns min_r max_r steps Hs) as [rs Hrs].
      rewrite (get_bifurcation_data_eq _ _ _ _ _ rs Hrs), kept_empty by lia.
      reflexivity.
    + right. split; [right; now right|].
      destruct (linspace_returns min_r max_r steps Hs) as [rs Hrs].
      rewrite (get_bifurcation_data_eq _ _ _ _ _ rs Hrs), kept_empty by lia.
      reflexivity.
    + left. repeat (split; [assumption|]).
      destruct (get_bifurcation_data_returns min_r max_r steps iterations
                  last Hs Hl Hi) as (rs & _ & _ & Hdf).
      eexists. exact Hdf.
Qed.

(** Without the assumption [last <= iterations] the number of rows is
    [steps * min(last, iterations)]: a [last] beyond [iterations] keeps
    every pass, nothing is discarded. *)
Theorem get_bifurcation_data_row_count (min_r max_r : R)
    (steps iterations last : Z) :
  (0 <= steps)%Z -> (1 <= iterations)%Z -> (1 <= last)%Z ->
  exists df,
    get_bifurcation_data min_r max_r steps iterations last = inr df /\
    Z.of_nat (length df) = (steps * Z.min last iterations)%Z.
Proof.
  intros Hs Hi Hl.
  destruct (get_bifurcation_data_returns min_r max_r steps iterations last
              Hs Hl Hi) as (rs & _ & Hlen & Hdf).
  eexists. split; [exact Hdf|].
  rewrite concat_frames_length, kept_length_general, Hlen by lia. lia.
Qed.

Lemma get_bifurcation_data_row_count_no_burn_in :
  (0 <= 800)%Z /\ (1 <= 50)%Z /\ (1 <= 100)%Z /\
  exists df,
    get_bifurcation_data 2.5 4 800 50 100 = inr df /\
    Z.of_nat (length df) = 40000%Z.
Proof.
  assert (H1 : (0 <= 800)%Z) by lia.
  assert (H2 : (1 <= 50)%Z) by lia.
  assert (H3 : (1 <= 100)%Z) by lia.
  repeat (split; [assumption|]).
  exact (get_bifurcation_data_row_count 2.5 4 800 50 100 H1 H2 H3).
Defined.

Lemma range_nth_error (lo hi : Z) (g : nat) :
  (g < Z.to_nat (hi - lo))%nat ->
  nth_error (range lo hi) g = Some (lo + Z.of_nat g)%Z.
Proof.
  intros H. unfold range.
  rewrite nth_error_map, (nth_error_nth' _ 0%nat) by (rewrite length_seq; lia).
  rewrite seq_nth by lia. reflexivity.
Qed.

Lemma nth_error_combine_seq (rs : list R) :
  forall k s r,
    nth_error rs k = Some r ->
    nth_error (combine (seq s (length rs)) rs) k = Some ((s + k)%nat, r).
Proof.
  induction rs as [|u rs IH]; intros [|k] s r H; simpl in *; try discriminate.
  - injection H as <-. now rewrite Nat.add_0_r.
  - rewrite (IH k (S s) r H). do 2 f_equal. lia.
Qed.

Lemma frame_at_nth_error (rs : list R) (i : Z) (k : nat) (r : R) :
  nth_error rs k = Some r ->
  nth_error (frame_at rs i) k
  = Some (mk_row k r (orbit r (S (Z.to_nat i)))).
Proof.
  intros H. rewrite frame_at_eq, nth_error_map.
  now rewrite (nth_error_combine_seq rs k 0 r H).
Qed.

Lemma concat_frames_nth_error (rs : list R) (k : nat) :
  (k < length rs)%nat ->
  forall l g i,
    nth_error l g = Some i ->
    nth_error (concat (map (frame_at rs) l)) (g * length rs + k)
    = nth_error (frame_at rs i) k.
Proof.
  intros Hk. induction l as [|j l IH]; intros [|g] i H; simpl in *;
    try discriminate.
  - injection H as <-. apply nth_error_app1. now rewrite frame_at_length.
  - rewrite nth_error_app2 by (rewrite frame_at_length; lia).
    rewrite frame_at_length.
    replace (length rs + g * length rs + k - length rs)%nat
      with (g * length rs + k)%nat by lia.
    now apply IH.
Qed.

(** The rows come grouped by pass, each group in sweep order: the row
    at position [g * steps + k] belongs to the growth rate number [k]
    and holds its state after [max(0, iterations - last) + g + 1]
    passes, so the first [max(0, iterations - last)] passes leave no
    row. *)
Theorem get_bifurcation_data_row_order (min_r max_r : R)
    (steps iterations last : Z) (g k : nat) :
  (1 <= iterations)%Z -> (1 <= last)%Z ->
  (Z.of_nat g < Z.min last iterations)%Z -> (Z.of_nat k < steps)%Z ->
  exists rs df r,
    linspace min_r max_r steps = inr rs /\
    get_bifurcation_data min_r max_r steps iterations last = inr df /\
    nth_error rs k = Some r /\
    nth_error df (g * Z.to_nat steps + k)
    = Some (mk_row k r
              (orbit r (Z.to_nat (Z.max 0 (iterations - last)) + g + 1))).
Proof.
  intros Hi Hl Hg Hk.
  destruct (get_bifurcation_data_returns min_r max_r steps iterations last)
    as (rs & Hrs & Hlen & Hdf); try lia.
  destruct (nth_error rs k) as [r|] eqn:Hr;
    [|apply nth_error_None in Hr; lia].
  exists rs, (concat (map (frame_at rs) (kept iterations last))), r.
  repeat (split; [assumption|]).
  rewrite <- Hlen.
  rewrite (concat_frames_nth_error rs k)
    with (i := (Z.max 0 (iterations - last) + Z.of_nat g)%Z).
  - rewrite (frame_at_nth_error rs _ k r Hr). do 3 f_equal. lia.
  - apply nth_error_Some. congruence.
  - unfold kept. apply range_nth_error. lia.
Qed.

Lemma get_bifurcation_data_row_order_main :
  (1 <= 1000)%Z /\ (1 <= 100)%Z /\
  (Z.of_nat 99 < Z.min 100 1000)%Z /\ (Z.of_nat 799 < 800)%Z /\
  exists rs df r,
    linspace 2.5 4 800 = inr rs /\
    get_bifurcation_data 2.5 4 800 1000 100 = inr df /\
    nth_error rs 799 = Some r /\
    nth_error df (99 * Z.to_nat 800 + 799)
    = Some (mk_row 799 r
              (orbit r (Z.to_nat (Z.max 0 (1000 - 100)) + 99 + 1))).
Proof.
  assert (H1 : (1 <= 1000)%Z) by lia.
  assert (H2 : (1 <= 100)%Z) by lia.
  assert (H3 : (Z.of_nat 99 < Z.min 100 1000)%Z) by lia.
  assert (H4 : (Z.of_nat 799 < 800)%Z) by lia.
  repeat (split; [assumption|]).
  exact (get_bifurcation_data_row_order 2.5 4 800 1000 100 99 799
           H1 H2 H3 H4).
Defined.

Lemma pick_nth_error (k : nat) (rs : list R) : pick 0 k rs = nth_error rs k.
Proof. unfold pick. simpl. now rewrite Nat.sub_0_r. Qed.

(** The rows of one label are the retained tail of one trajectory: a
    label below [steps] occurs [min(last, iterations)] times and no
    other label occurs; along the rows of a label the growth rate does
    not change and every state is the image of the one before under
    the logistic map. *)
Theorem get_bifurcation_data_label_tail (min_r max_r : R)
    (steps iterations last : Z) :
  (0 <= steps)%Z -> (1 <= iterations)%Z -> (1 <= last)%Z ->
  exists df,
    get_bifurcation_data min_r max_r steps iterations last = inr df /\
    forall k,
      Z.of_nat (length (rows_at k df))
      = (if (Z.of_nat k <? steps)%Z then Z.min last iterations else 0)%Z /\
      forall j rw rw',
        nth_error (rows_at k df) j = Some rw ->
        nth_error (rows_at k df) (S j) = Some rw' ->
        label rw = k /\ label rw' = k /\
        r_col rw' = r_col rw /\
        x_col rw' = logistic (r_col rw) (x_col rw).
Proof.
  intros Hs Hi Hl.
  destruct (get_bifurcation_data_returns min_r max_r steps iterations last
              Hs Hl Hi) as (rs & _ & Hlen & Hdf).
  eexists. split; [exact Hdf|]. intros k.
  rewrite rows_at_lockstep. unfold column. rewrite pick_nth_error.
  destruct (nth_error rs k) as [r|] eqn:Hr.
  - assert (Hk : (k < length rs)%nat) by (apply nth_error_Some; congruence).
    replace (Z.of_nat k <? steps)%Z with true by lia.
    split.
    + rewrite length_map, kept_length_general by lia. lia.
    + intros j rw rw' H1 H2.
      rewrite nth_error_map in H1, H2. unfold kept in H1, H2.
      assert (Hj : (S j < Z.to_nat (iterations - Z.max 0 (iterations - last)))%nat).
      { rewrite <- (range_length (Z.max 0 (iterations - last)) iterations).
        apply nth_error_Some. destruct (nth_error (range _ _) (S j));
          [discriminate | discriminate H2]. }
      rewrite range_nth_error in H1, H2 by lia.
      cbn [option_map] in H1, H2.
      injection H1 as <-. injection H2 as <-. cbn [label r_col x_col].
      repeat split.
      assert (E : forall a b, b = S a ->
                    orbit r (S b) = logistic r (orbit r (S a)))
        by (intros a b ->; reflexivity).
      apply E. lia.
  - apply nth_error_None in Hr.
    replace (Z.of_nat k <? steps)%Z with false by lia.
    split; [reflexivity|]. intros [|j] rw rw' H1; discriminate H1.
Qed.

Lemma get_bifurcation_data_label_tail_main :
  (0 <= 800)%Z /\ (1 <= 1000)%Z /\ (1 <= 100)%Z /\
  exists df,
    get_bifurcation_data 2.5 4 800 1000 100 = inr df /\
    forall k,
      Z.of_nat (length (rows_at k df))
      = (if (Z.of_nat k <? 800)%Z then Z.min 100 1000 else 0)%Z /\
      forall j rw rw',
        nth_error (rows_at k df) j = Some rw ->
        nth_error (rows_at k df) (S j) = Some rw' ->
        label rw = k /\ label rw' = k /\
        r_col rw' = r_col rw /\
        x_col rw' = logistic (r_col rw) (x_col rw).
Proof.
  assert (H1 : (0 <= 800)%Z) by lia.
  assert (H2 : (1 <= 1000)%Z) by lia.
  assert (H3 : (1 <= 100)%Z) by lia.
  repeat (split; [assumption|]).
  exact (get_bifurcation_data_label_tail 2.5 4 800 1000 100 H1 H2 H3).
Defined.

(** ** What the seed buys *)




Lemma orbit_subcritical (r : R) (n : nat) :
  0 <= r <= 1 -> 0 <= orbit r (S n) <= orbit r n /\ orbit r n <= seed.
Proof.
  intros Hr. induction n as [|n [[IH0 IH1] IH2]].
  - simpl. unfold logistic, seed. split; [|lra]. split; nra.
  - split; [|lra].
    change (orbit r (S (S n))) with (logistic r (orbit r (S n))).
    unfold logistic. set (x := orbit r (S n)) in *.
    assert (Hx : x <= 1) by (unfold seed in IH2; lra).
    split.
    + apply Rmult_le_pos; [apply Rmult_le_pos|]; lra.
    + assert (H : 0 <= r * x <= x) by nra.
      assert (H' : 0 <= 1 - x <= 1) by lra. nra.
Qed.

(** For a sweep inside [[0, 1]] the states only shrink: every retained
    state lies between 0 and the seed 1e-5. *)
Theorem get_bifurcation_data_subcritical (min_r max_r : R)
    (steps iterations last : Z) :
  0 <= min_r -> min_r <= max_r -> max_r <= 1 ->
  (0 <= steps)%Z -> (1 <= iterations)%Z -> (1 <= last)%Z ->
  exists df,
    get_bifurcation_data min_r max_r steps iterations last = inr df /\
    forall rw, In rw df -> 0 <= x_col rw <= 1e-5.
Proof.
  intros H0 Hr H1 Hs Hi Hl.
  destruct (get_bifurcation_data_returns min_r max_r steps iterations last
              Hs Hl Hi) as (rs & Hrs & _ & Hdf).
  eexists. split; [exact Hdf|].
  intros rw Hrw. apply concat_frames_In in Hrw as (i & _ & Hrw).
  apply frame_at_In in Hrw as [Hnth ->]. apply nth_error_In in Hnth.
  pose proof (linspace_bounds _ _ _ _ _ Hr Hrs Hnth) as Hb.
  assert (Hr01 : 0 <= r_col rw <= 1) by lra.
  destruct (orbit_subcritical (r_col rw) (Z.to_nat i) Hr01) as [[A B] C].
  fold seed. lra.
Qed.

Lemma get_bifurcation_data_subcritical_example :
  0 <= 0 /\ 0 <= 1 /\ 1 <= 1 /\
  (0 <= 10)%Z /\ (1 <= 1000)%Z /\ (1 <= 100)%Z /\
  exists df,
    get_bifurcation_data 0 1 10 1000 100 = inr df /\
    forall rw, In rw df -> 0 <= x_col rw <= 1e-5.
Proof.
  assert (H0 : 0 <= 0) by lra.
  assert (H1 : 0 <= 1) by lra.
  assert (H2 : 1 <= 1) by lra.
  assert (H3 : (0 <= 10)%Z) by lia.
  assert (H4 : (1 <= 1000)%Z) by lia.
  assert (H5 : (1 <= 100)%Z) by lia.
  repeat (split; [assumption|]).
  exact (get_bifurcation_data_subcritical 0 1 10 1000 100
           H0 H1 H2 H3 H4 H5).
Defined.

(** ** The simulation beyond its contract *)

(** The three ways a call of the simulation can end: a negative
    [steps] is rejected by [np.zeros] with a [ValueError], [steps = 0]
    fails at [x[0] = 0.5] with an [IndexError], and every
    [steps >= 1] returns [steps] values after exactly [steps - 1]
    draws. *)
Theorem simulate_time_series_outcomes {RandomState : Type}
    (gauss : R -> R -> RandomState -> R * RandomState)
    (r noise_level : R) (steps : Z) (g : RandomState) :
  ((steps < 0)%Z /\
   simulate_time_series gauss r noise_level steps g = inl ValueError)
  \/
  (steps = 0%Z /\
   simulate_time_series gauss r noise_level steps g = inl IndexError)
  \/
  ((1 <= steps)%Z /\
   exists xs,
     simulate_time_series gauss r noise_level steps g
     = inr (xs, state_at gauss (py_max 0.0001 noise_level) g
                  (Z.to_nat steps - 1)) /\
     Z.of_nat (length xs) = steps).
Proof.
  destruct (Z_lt_le_dec steps 0) as [H|H];
    [|destruct (Z.eq_dec steps 0) as [E|E]].
  - left. split; [exact H|]. unfold simulate_time_series, zeros.
    replace (steps <? 0)%Z with true by lia. reflexivity.
  - right; left. split; [exact E|]. subst steps. reflexivity.
  - right; right. assert (Hs : (1 <= steps)%Z) by lia.
    split; [exact Hs|]. eexists. split.
    + apply simulate_time_series_eq. exact Hs.
    + rewrite length_map, length_seq. lia.
Qed.

Lemma state_at_add {RandomState : Type}
    (gauss : R -> R -> RandomState -> R * RandomState)
    (scale : R) (g : RandomState) (a b : nat) :
  state_at gauss scale g (a + b)
  = state_at gauss scale (state_at gauss scale g a) b.
Proof.
  induction b as [|b IH]; [now rewrite Nat.add_0_r|].
  rewrite <- plus_n_Sm. simpl. now rewrite IH.
Qed.

Lemma firstn_seq_prefix (a b : nat) :
  forall s, firstn a (seq s (a + b)) = seq s a.
Proof.
  induction a as [|a IH]; intros s; simpl; [reflexivity|]. now rewrite IH.
Qed.

(** A shorter run is the beginning of a longer one: from one generator
    state, the trajectory of [n] steps is the first [n] values of the
    trajectory of [m >= n] steps, and the longer run leaves the
    generator where [m - n] further draws take the shorter one. *)
Theorem simulate_time_series_prefix {RandomState : Type}
    (gauss : R -> R -> RandomState -> R * RandomState)
    (r noise_level : R) (n m : Z) (g : RandomState) :
  (1 <= n)%Z -> (n <= m)%Z ->
  exists xs ys g1 g2,
    simulate_time_series gauss r noise_level n g = inr (xs, g1) /\
    simulate_time_series gauss r noise_level m g = inr (ys, g2) /\
    xs = firstn (Z.to_nat n) ys /\
    g2 = state_at gauss (py_max 0.0001 noise_level) g1 (Z.to_nat (m - n)).
Proof.
  intros Hn Hm. do 4 eexists.
  split; [apply simulate_time_series_eq; exact Hn|].
  split; [apply simulate_time_series_eq; lia|].
  cbv zeta. split.
  - rewrite firstn_map.
    replace (Z.to_nat m) with (Z.to_nat n + Z.to_nat (m - n))%nat by lia.
    now rewrite firstn_seq_prefix.
  - rewrite <- state_at_add. f_equal. lia.
Qed.

Lemma simulate_time_series_prefix_example :
  (1 <= 50)%Z /\ (50 <= 200)%Z /\
  exists xs ys g1 g2,
    simulate_time_series counter_gauss 3.8 0.01 50 0%nat = inr (xs, g1) /\
    simulate_time_series counter_gauss 3.8 0.01 200 0%nat = inr (ys, g2) /\
    xs = firstn (Z.to_nat 50) ys /\
    g2 = state_at counter_gauss (py_max 0.0001 0.01) g1 (Z.to_nat (200 - 50)).
Proof.
  assert (H1 : (1 <= 50)%Z) by lia.
  assert (H2 : (50 <= 200)%Z) by lia.
  repeat (split; [assumption|]).
  exact (simulate_time_series_prefix counter_gauss 3.8 0.01 50 200 0%nat
           H1 H2).
Defined.

(** Every noise level up to the floor 1e-4, zero and negative values
    included, gives the run of the noise level 1e-4 itself: same
    outcome, same generator state. *)
Theorem simulate_time_series_noise_floor {RandomState : Type}
    (gauss : R -> R -> RandomState -> R * RandomState)
    (r noise_level : R) (steps : Z) (g : RandomState) :
  noise_level <= 0.0001 ->
  simulate_time_series gauss r noise_level steps g
  = simulate_time_series gauss r 0.0001 steps g.
Proof.
  intros H.
  assert (E : py_max 0.0001 noise_level = py_max 0.0001 0.0001).
  { unfold py_max. destruct (Rlt_dec 0.0001 noise_level);
      destruct (Rlt_dec 0.0001 0.0001); lra. }
  destruct (Z_lt_le_dec steps 1) as [Hs|Hs].
  - unfold simulate_time_series, zeros.
    destruct (steps <? 0)%Z eqn:Hneg; [reflexivity|].
    assert (steps = 0%Z) as -> by lia. reflexivity.
  - rewrite !simulate_time_series_eq by exact Hs. cbv zeta.
    now rewrite E.
Qed.

Lemma simulate_time_series_noise_floor_example :
  0 <= 0.0001 /\
  simulate_time_series counter_gauss 3.8 0 200 0%nat
  = simulate_time_series counter_gauss 3.8 0.0001 200 0%nat.
Proof.
  assert (H : 0 <= 0.0001) by lra.
  split; [exact H|].
  exact (simulate_time_series_noise_floor counter_gauss 3.8 0 200 0%nat H).
Defined.

Lemma logistic_iter_unit (r : R) (t : nat) :
  0 <= r <= 4 -> 0 <= logistic_iter r t <= 1.
Proof.
  intros Hr. induction t as [|t IH]; simpl; [lra|].
  now apply logistic_unit_interval.
Qed.

Lemma trajectory_silent (r : R) (noise : nat -> R) (t : nat) :
  0 <= r <= 4 -> (forall k, (k < t)%nat -> noise k = 0) ->
  trajectory r noise t = logistic_iter r t.
Proof.
  intros Hr. induction t as [|t IH]; intros H; [reflexivity|].
  cbn [trajectory logistic_iter].
  rewrite IH, H, Rplus_0_r by auto with arith.
  fold (logistic r (logistic_iter r t)).
  apply clip_inside. apply logistic_unit_interval;
    [exact Hr | now apply logistic_iter_unit].
Qed.

(** When the growth rate is in [[0, 4]] and the draws are all zero, the
    clamp never acts: the run returns the iterates of the logistic map
    from 0.5. *)
Theorem simulate_time_series_silent {RandomState : Type}
    (gauss : R -> R -> RandomState -> R * RandomState)
    (r noise_level : R) (steps : Z) (g : RandomState) :
  (1 <= steps)%Z -> 0 <= r <= 4 ->
  (forall k, (Z.of_nat k < steps - 1)%Z ->
     draw gauss (py_max 0.0001 noise_level) g k = 0) ->
  outcome (simulate_time_series gauss r noise_level steps g)
  = inr (map (logistic_iter r) (seq 0 (Z.to_nat steps))).
Proof.
  intros Hs Hr Hd. rewrite simulate_time_series_eq by exact Hs.
  cbv zeta. simpl. f_equal. apply map_ext_in. intros t Ht.
  apply in_seq in Ht. apply trajectory_silent; [exact Hr|].
  intros k Hk. apply Hd. lia.
Qed.

Lemma simulate_time_series_silent_example :
  (1 <= 200)%Z /\ 0 <= 3.8 <= 4 /\
  (forall k, (Z.of_nat k < 200 - 1)%Z ->
     draw silent_gauss (py_max 0.0001 0.01) 0%nat k = 0) /\
  outcome (simulate_time_series silent_gauss 3.8 0.01 200 0%nat)
  = inr (map (logistic_iter 3.8) (seq 0 (Z.to_nat 200))).
Proof.
  assert (H1 : (1 <= 200)%Z) by lia.
  assert (H2 : 0 <= 3.8 <= 4) by lra.
  assert (H3 : forall k, (Z.of_nat k < 200 - 1)%Z ->
     draw silent_gauss (py_max 0.0001 0.01) 0%nat k = 0)
    by (intros k _; reflexivity).
  repeat (split; [assumption|]).
  exact (simulate_time_series_silent silent_gauss 3.8 0.01 200 0%nat
           H1 H2 H3).
Defined.

(** ** The metrics beyond their contract *)

Lemma sample_variance_nonneg (xs : list R) :
  (2 <= length xs)%nat -> 0 <= sample_variance xs.
Proof.
  intros H. unfold sample_variance.
  pose proof (sum_sq_dev_nonneg xs) as Hs.
  assert (Hn : 0 < INR (length xs) - 1).
  { apply le_INR in H. simpl in H. lra. }
  apply Rmult_le_pos; [exact Hs|]. left. now apply Rinv_0_lt_compat.
Qed.

Lemma compute_metrics_finite (xs : list R) :
  exists a v,
    compute_metrics xs = (Fin a, Fin v) /\ -1 <= a <= 1 /\ 0 <= v /\
    v = (if (length xs <=? 1)%nat then 0 else sample_variance xs).
Proof.
  rewrite compute_metrics_eq.
  assert (Hv : exists v,
             (if (length xs <=? 1)%nat then Fin 0
              else Fin (sample_variance xs)) = Fin v /\ 0 <= v /\
             v = (if (length xs <=? 1)%nat then 0 else sample_variance xs)).
  { destruct (Nat.leb_spec (length xs) 1) as [H|H].
    - exists 0. split; [reflexivity|]. split; [lra | reflexivity].
    - eexists. split; [reflexivity|]. split; [|reflexivity].
      apply sample_variance_nonneg. lia. }
  destruct Hv as (v & -> & Hv0 & Hv).
  destruct (length xs <? 2)%nat.
  - exists 0, v. repeat split; try lra; exact Hv.
  - destruct (Req_dec_T (sum_sq_dev (tl xs)) 0) as [Ea|Ea].
    + exists 0, v. repeat split; try lra; exact Hv.
    + destruct (Req_dec_T (sum_sq_dev (removelast xs)) 0) as [Eb|Eb].
      * exists 0, v. repeat split; try lra; exact Hv.
      * eexists _, v. split; [reflexivity|].
        split; [now apply pearson_bounds|]. split; [exact Hv0 | exact Hv].
Qed.

(** Whatever the trajectory, the autocorrelation reported lies in
    [[-1, 1]] and the variance reported is not negative. *)
Theorem compute_metrics_range (xs : list R) :
  exists a v,
    compute_metrics xs = (Fin a, Fin v) /\ -1 <= a <= 1 /\ 0 <= v.
Proof.
  destruct (compute_metrics_finite xs) as (a & v & E & Ha & Hv & _).
  exists a, v. repeat split; try assumption; lra.
Qed.

Lemma rsum_sq_shift (c : R) (l : list R) :
  rsum (map (fun v => (v - c) ^ 2) l)
  = rsum (map (fun v => v * v) l) - 2 * c * rsum l + INR (length l) * (c * c).
Proof.
  induction l as [|u l IH]; [simpl; ring|].
  cbn [map rsum fold_right length]. fold (rsum (map (fun v => (v - c) ^ 2) l)).
  fold (rsum (map (fun v => v * v) l)). fold (rsum l).
  rewrite IH, S_INR. ring.
Qed.

(** The largest spread that values of [[0, 1]] can have. *)
Lemma sum_sq_dev_unit (l : list R) :
  Forall (fun v => 0 <= v <= 1) l -> sum_sq_dev l <= INR (length l) / 4.
Proof.
  intros H. destruct (Nat.eq_dec (length l) 0) as [E|E].
  - apply length_zero_iff_nil in E. subst l. unfold sum_sq_dev. simpl. lra.
  - assert (Hn : 0 < INR (length l)) by (apply lt_0_INR; lia).
    unfold sum_sq_dev. rewrite rsum_sq_shift. unfold mean.
    set (n := INR (length l)) in *. set (s1 := rsum l).
    set (s2 := rsum (map (fun v => v * v) l)).
    assert (H21 : s2 <= s1 /\ 0 <= s1 <= n).
    { unfold s1, s2, n. clear Hn E s1 s2 n.
      induction H as [|v l Hv Hl [IH1 IH2]].
      - simpl. lra.
      - cbn [map rsum fold_right length].
        fold (rsum (map (fun v => v * v) l)). fold (rsum l).
        rewrite S_INR. assert (v * v <= v) by nra. lra. }
    replace (s2 - 2 * (s1 / n) * s1 + n * (s1 / n * (s1 / n)))
      with (s2 - s1 * s1 / n) by (field; lra).
    assert (Hq : s1 - s1 * s1 / n <= n / 4).
    { apply (Rmult_le_reg_r n); [exact Hn|].
      replace ((s1 - s1 * s1 / n) * n) with (s1 * n - s1 * s1)
        by (field; lra).
      pose proof (pow2_ge_0 (s1 - n / 2)). nra. }
    lra.
Qed.

Lemma sample_variance_unit (xs : list R) :
  Forall (fun v => 0 <= v <= 1) xs -> (2 <= length xs)%nat ->
  0 <= sample_variance xs <= 1 / 2 /\
  (INR (length xs) - 1) * sample_variance xs <= INR (length xs) / 4.
Proof.
  intros H Hn.
  pose proof (sum_sq_dev_unit xs H) as Hb.
  pose proof (sample_variance_nonneg xs Hn) as H0.
  assert (Hn' : 2 <= INR (length xs)).
  { replace 2 with (INR 2) by (simpl; lra). apply le_INR. exact Hn. }
  assert (E : (INR (length xs) - 1) * sample_variance xs = sum_sq_dev xs).
  { unfold sample_variance. field. lra. }
  set (n := INR (length xs)) in *. set (v := sample_variance xs) in *.
  split; [split; [exact H0|] | lra].
  assert ((n - 1) * v <= (n - 1) * (1 / 2)) by lra.
  apply (Rmult_le_reg_l (n - 1)); lra.
Qed.

(** For a trajectory with values in [[0, 1]] the variance reported is at
    most [n / (4 (n - 1))], hence never above 1/2. *)
Theorem compute_metrics_variance_bound (xs : list R) :
  Forall (fun v => 0 <= v <= 1) xs ->
  exists v,
    snd (compute_metrics xs) = Fin v /\
    0 <= v <= 1 / 2 /\
    (INR (length xs) - 1) * v <= INR (length xs) / 4.
Proof.
  intros H. rewrite compute_metrics_eq. cbn [snd].
  destruct (Nat.leb_spec (length xs) 1) as [Hn|Hn].
  - exists 0. split; [reflexivity|]. split; [lra|].
    pose proof (pos_INR (length xs)). lra.
  - eexists. split; [reflexivity|]. apply sample_variance_unit; [exact H | lia].
Qed.

Lemma compute_metrics_variance_bound_example :
  Forall (fun v => 0 <= v <= 1) [0; 1; 0] /\
  exists v,
    snd (compute_metrics [0; 1; 0]) = Fin v /\
    0 <= v <= 1 / 2 /\
    (INR (length [0; 1; 0]) - 1) * v <= INR (length [0; 1; 0]) / 4.
Proof.
  assert (H : Forall (fun v => 0 <= v <= 1) [0; 1; 0])
    by (repeat constructor; lra).
  split; [exact H|].
  exact (compute_metrics_variance_bound [0; 1; 0] H).
Defined.
















(** A trajectory of two values always reports the autocorrelation 0.0,
    whatever the values, because each lag window is a single value; its
    variance is half the squared difference. *)
Theorem compute_metrics_two_points (a b : R) :
  compute_metrics [a; b] = (Fin 0, Fin ((a - b) ^ 2 / 2)).
Proof.
  rewrite compute_metrics_eq. cbn [length Nat.ltb Nat.leb tl removelast].
  rewrite (sum_sq_dev_short [b]) by (simpl; lia).
  destruct (Req_dec_T 0 0) as [_|N]; [|contradiction].
  do 2 f_equal.
  unfold sample_variance, sum_sq_dev, mean, rsum. simpl. field.
Qed.

(** ** The card and the whole numerical path of main *)

Lemma bar_width_fin (a : R) :
  -1 <= a <= 1 -> bar_width (Fin a) = Fin (Rabs a * 100).
Proof.
  intros H. unfold bar_width, py_min. cbn [np_abs np_mul np_lt].
  assert (Rabs a <= 1) by (apply Rabs_le; lra).
  destruct (Rlt_dec 100 (Rabs a * 100)); [lra | reflexivity].
Qed.

Lemma ac_color_fin (a : R) :
  (ac_color (Fin a) = Red <-> 0.9 < a) /\
  (ac_color (Fin a) = Orange <-> 0.7 < a <= 0.9) /\
  (ac_color (Fin a) = Green <-> a <= 0.7).
Proof.
  unfold ac_color. cbn [np_lt].
  destruct (Rlt_dec 0.7 a), (Rlt_dec 0.9 a);
    repeat split; intros; try discriminate; try reflexivity; lra.
Qed.

(** The card drawn from the metrics of any trajectory: the bar width is
    [100 * |autocorr|], between 0 and 100, so the cap of 100 in line 189
    never cuts; the colour is red above 0.9, orange in (0.7, 0.9] and
    green up to 0.7, the second test overriding the first. *)
Theorem metric_card (xs : list R) :
  exists a,
    fst (compute_metrics xs) = Fin a /\
    bar_width (fst (compute_metrics xs)) = Fin (Rabs a * 100) /\
    0 <= Rabs a * 100 <= 100 /\
    (ac_color (fst (compute_metrics xs)) = Red <-> 0.9 < a) /\
    (ac_color (fst (compute_metrics xs)) = Orange <-> 0.7 < a <= 0.9) /\
    (ac_color (fst (compute_metrics xs)) = Green <-> a <= 0.7).
Proof.
  destruct (compute_metrics_finite xs) as (a & v & E & Ha & _).
  exists a. rewrite E. cbn [fst].
  split; [reflexivity|]. split; [now apply bar_width_fin|]. split.
  - pose proof (Rabs_pos a). assert (Rabs a <= 1) by (apply Rabs_le; lra).
    lra.
  - apply ac_color_fin.
Qed.

(** The numerical path of [main] never raises, whatever the two slider
    values and the generator: it yields the 80,000 rows of the sweep, a
    trajectory of 200 values in [[0, 1]] after 199 draws, an
    autocorrelation in [[-1, 1]], a variance in [[0, 50/199]] and a bar
    of width [100 * |autocorr|]. *)
Theorem main_engine_runs {RandomState : Type}
    (gauss : R -> R -> RandomState -> R * RandomState)
    (r_focus noise : R) (g : RandomState) :
  exists an a v,
    main_engine gauss r_focus noise g
    = inr (an, state_at gauss (py_max 0.0001 noise) g 199) /\
    Z.of_nat (length (df_bif an)) = 80000%Z /\
    Z.of_nat (length (ts_data an)) = 200%Z /\
    Forall (fun x => 0 <= x <= 1) (ts_data an) /\
    autocorr an = Fin a /\ -1 <= a <= 1 /\
    variance an = Fin v /\ 0 <= v <= 50 / 199 /\
    card_bar an = Fin (Rabs a * 100).
Proof.
  unfold main_engine.
  destruct (get_bifurcation_data_returns 2.5 4.0 800 1000 100)
    as (rs & _ & Hlen & Hdf); try lia.
  rewrite Hdf. cbn [bind].
  rewrite simulate_time_series_eq by lia. cbv zeta. cbn [bind fst snd].
  set (ts := map _ (seq 0 (Z.to_nat 200))).
  assert (Hts : Forall (fun x => 0 <= x <= 1) ts).
  { apply Forall_forall. intros x Hx. unfold ts in Hx.
    apply in_map_iff in Hx as (t & <- & _). apply trajectory_unit. }
  assert (Hl : length ts = 200%nat).
  { unfold ts. now rewrite length_map, length_seq. }
  destruct (compute_metrics_finite ts) as (a & v & E & Ha & Hv0 & Hv).
  eexists _, a, v. rewrite E. cbn [fst snd].
  split; [reflexivity|]. cbn [df_bif ts_data autocorr variance card_bar].
  split.
  { rewrite concat_frames_length, kept_length, Hlen by lia. lia. }
  split; [rewrite Hl; reflexivity|]. split; [exact Hts|].
  split; [reflexivity|]. split; [exact Ha|]. split; [reflexivity|].
  split; [|now apply bar_width_fin].
  split; [exact Hv0|].
  rewrite Hl in Hv. cbn [Nat.leb] in Hv. subst v.
  destruct (sample_variance_unit ts Hts) as [_ Hb]; [lia|].
  rewrite Hl in Hb.
  replace (INR 200) with 200 in Hb by (rewrite INR_IZR_INZ; reflexivity).
  lra.
Qed.

(** ** A range that is not increasing *)

Lemma even_grid_between (a b : R) (num : Z) (r : R) :
  (2 <= num)%Z -> In r (even_grid a b num) ->
  exists q, 0 <= q <= 1 /\ r = a + q * (b - a).
Proof.
  intros Hn Hr. apply even_grid_In in Hr as (i & Hi & ->).
  assert (Hd : IZR (num - 1) = INR (Z.to_nat num - 1)).
  { rewrite INR_IZR_INZ. f_equal. lia. }
  rewrite Hd.
  assert (Hpos : 0 < INR (Z.to_nat num - 1)) by (apply lt_0_INR; lia).
  assert (Hi0 : 0 <= INR i) by apply pos_INR.
  assert (Hi1 : INR i <= INR (Z.to_nat num - 1)) by (apply le_INR; lia).
  set (d := INR (Z.to_nat num - 1)) in *.
  exists (INR i / d). split; [split|].
  - apply Rmult_le_pos; [exact Hi0|]. left. now apply Rinv_0_lt_compat.
  - apply (Rmult_le_reg_r d); [exact Hpos|].
    unfold Rdiv. rewrite Rmult_assoc, Rinv_l by lra. lra.
  - field. lra.
Qed.

Lemma linspace_bounds_rev (a b : R) (num : Z) (rs : list R) (r : R) :
  b <= a -> linspace a b num = inr rs -> In r rs -> b <= r <= a.
Proof.
  intros Hab Hl Hr.
  destruct (Z_lt_le_dec num 2) as [Hs|Hs].
  - destruct (Z_lt_le_dec num 0) as [Hneg|Hnn].
    + unfold linspace in Hl. replace (num <? 0)%Z with true in Hl by lia.
      discriminate.
    + assert (E : num = 0%Z \/ num = 1%Z) by lia.
      destruct E as [-> | ->].
      * rewrite linspace_zero in Hl. injection Hl as <-. destruct Hr.
      * rewrite linspace_one in Hl. injection Hl as <-.
        destruct Hr as [<-|[]]. lra.
  - rewrite linspace_grid in Hl by exact Hs. injection Hl as <-.
    destruct (even_grid_between a b num r Hs Hr) as (q & Hq & ->). nra.
Qed.

(** The range is not validated: with [max_r <= min_r] the sweep still
    returns its [steps * min(last, iterations)] rows, and their growth
    rates lie between [max_r] and [min_r]; for [max_r = min_r] every
    row carries that one growth rate. *)
Theorem get_bifurcation_data_inverted_range (min_r max_r : R)
    (steps iterations last : Z) :
  max_r <= min_r ->
  (0 <= steps)%Z -> (1 <= iterations)%Z -> (1 <= last)%Z ->
  exists df,
    get_bifurcation_data min_r max_r steps iterations last = inr df /\
    Z.of_nat (length df) = (steps * Z.min last iterations)%Z /\
    (forall rw, In rw df -> max_r <= r_col rw <= min_r) /\
    (max_r = min_r -> forall rw, In rw df -> r_col rw = min_r).
Proof.
  intros Hr Hs Hi Hl.
  destruct (get_bifurcation_data_returns min_r max_r steps iterations last
              Hs Hl Hi) as (rs & Hrs & Hlen & Hdf).
  eexists. split; [exact Hdf|].
  assert (Hb : forall rw,
             In rw (concat (map (frame_at rs) (kept iterations last))) ->
             max_r <= r_col rw <= min_r).
  { intros rw Hrw. apply concat_frames_In in Hrw as (i & _ & Hrw).
    apply frame_at_In in Hrw as [Hnth _]. apply nth_error_In in Hnth.
    exact (linspace_bounds_rev _ _ _ _ _ Hr Hrs Hnth). }
  split; [|split].
  - rewrite concat_frames_length, kept_length_general, Hlen by lia. lia.
  - exact Hb.
  - intros E rw Hrw. specialize (Hb rw Hrw). lra.
Qed.

Lemma get_bifurcation_data_inverted_range_example :
  2.5 <= 4 /\ (0 <= 800)%Z /\ (1 <= 1000)%Z /\ (1 <= 100)%Z /\
  exists df,
    get_bifurcation_data 4 2.5 800 1000 100 = inr df /\
    Z.of_nat (length df) = (800 * Z.min 100 1000)%Z /\
    (forall rw, In rw df -> 2.5 <= r_col rw <= 4) /\
    (2.5 = 4 -> forall rw, In rw df -> r_col rw = 4).
Proof.
  assert (H0 : 2.5 <= 4) by lra.
  assert (H1 : (0 <= 800)%Z) by lia.
  assert (H2 : (1 <= 1000)%Z) by lia.
  assert (H3 : (1 <= 100)%Z) by lia.
  repeat (split; [assumption|]).
  exact (get_bifurcation_data_inverted_range 4 2.5 800 1000 100
           H0 H1 H2 H3).
Defined.

(** ** More on the sweep: longer tails and the quiet regime *)

(** Keeping more passes only adds rows in front: for
    [last <= last' <= iterations] the result for [last'] is the result
    for [last] preceded by [(last' - last) * steps] earlier rows. *)
Theorem get_bifurcation_data_longer_tail (min_r max_r : R)
    (steps iterations last last' : Z) :
  (0 <= steps)%Z -> (1 <= last)%Z -> (last <= last')%Z ->
  (last' <= iterations)%Z ->
  exists df df' front,
    get_bifurcation_data min_r max_r steps iterations last = inr df /\
    get_bifurcation_data min_r max_r steps iterations last' = inr df' /\
    df' = front ++ df /\
    Z.of_nat (length front) = ((last' - last) * steps)%Z.
Proof.
  intros Hs Hl Hll Hi.
  destruct (get_bifurcation_data_returns min_r max_r steps iterations last)
    as (rs & Hrs & Hlen & Hdf); try lia.
  destruct (get_bifurcation_data_returns min_r max_r steps iterations last')
    as (rs' & Hrs' & _ & Hdf'); try lia.
  assert (rs' = rs) as -> by congruence.
  exists (concat (map (frame_at rs) (kept iterations last))),
         (concat (map (frame_at rs) (kept iterations last'))),
         (concat (map (frame_at rs)
                      (range (iterations - last') (iterations - last)))).
  split; [exact Hdf|]. split; [exact Hdf'|]. split.
  - unfold kept.
    replace (Z.max 0 (iterations - last')) with (iterations - last')%Z by lia.
    replace (Z.max 0 (iterations - last)) with (iterations - last)%Z by lia.
    rewrite (range_split (iterations - last') (iterations - last) iterations)
      by lia.
    now rewrite map_app, concat_app.
  - rewrite concat_frames_length, range_length, Hlen.
    rewrite Nat2Z.inj_mul, !Z2Nat.id by lia. ring.
Qed.

Lemma get_bifurcation_data_longer_tail_example :
  (0 <= 800)%Z /\ (1 <= 100)%Z /\ (100 <= 250)%Z /\ (250 <= 1000)%Z /\
  exists df df' front,
    get_bifurcation_data 2.5 4 800 1000 100 = inr df /\
    get_bifurcation_data 2.5 4 800 1000 250 = inr df' /\
    df' = front ++ df /\
    Z.of_nat (length front) = ((250 - 100) * 800)%Z.
Proof.
  assert (H1 : (0 <= 800)%Z) by lia.
  assert (H2 : (1 <= 100)%Z) by lia.
  assert (H3 : (100 <= 250)%Z) by lia.
  assert (H4 : (250 <= 1000)%Z) by lia.
  repeat (split; [assumption|]).
  exact (get_bifurcation_data_longer_tail 2.5 4 800 1000 100 250
           H1 H2 H3 H4).
Defined.





(** ** Trajectories whose next value is an affine image of the last *)





